(** * kreate-index: configuration, entry point and the ai.logo indexer

    A shallow embedding of [src/config.ts], [src/index.ts] and
    [src/indexers/ai/logo.ts], with the properties of the specification
    stated and proved over it.

    Conventions.
    - JavaScript strings are [string]s; the operations used by the sources
      ([startsWith], [endsWith], [split], [parseInt]) are defined in
      module [Js] following ECMA-262, restricted to what the sources call.
    - A function that may throw returns a [result]: [Ok v] or [Throw msg],
      where [msg] is the message of the [Error].
    - [process.env] is a finite map from names to values.
    - Console output and calls into collaborators are recorded as
      [event]s of a trace, in the order in which they happen. *)

From Stdlib Require Import ZArith String Ascii List.
From stdpp Require Import gmap strings list fin_maps sorting pretty.

Local Open Scope string_scope.
Local Open Scope list_scope.
Local Open Scope Z_scope.

(** ** Exceptions *)

Inductive result (A : Type) : Type :=
| Ok (a : A)
| Throw (msg : string).
Arguments Ok {A} a.
Arguments Throw {A} msg.

#[export] Instance result_ret : MRet result := λ A a, Ok a.
#[export] Instance result_bind : MBind result := λ A B f r,
  match r with
  | Ok a => f a
  | Throw msg => Throw msg
  end.

(** [assert(cond, msg)] of [@kreate/protocol/utils]: throws when the
    condition is falsy. *)
Definition assert (cond : bool) (msg : string) : result unit :=
  if cond then Ok tt else Throw msg.

(** ** The JavaScript string operations the sources use *)

Module Js.

(** [s.startsWith(p)] *)
Fixpoint startsWith (s p : string) : bool :=
  match p with
  | EmptyString => true
  | String c p' =>
      match s with
      | EmptyString => false
      | String d s' => if Ascii.eqb c d then startsWith s' p' else false
      end
  end.

(** [s.endsWith(suf)]: [s] is [suf], or its tail ends with [suf]. *)
Fixpoint endsWith (s suf : string) : bool :=
  String.eqb s suf ||
  match s with
  | EmptyString => false
  | String _ s' => endsWith s' suf
  end.

(** [s.split(sep)] for a separator of one character. *)
Fixpoint split (sep : ascii) (s : string) : list string :=
  match s with
  | EmptyString => [EmptyString]
  | String c s' =>
      if Ascii.eqb c sep then EmptyString :: split sep s'
      else match split sep s' with
           | f :: fs => String c f :: fs
           | [] => [String c EmptyString]
           end
  end.

(** [s.split(sep, limit)]: the fields are computed, then truncated. *)
Definition split_limit (sep : ascii) (limit : nat) (s : string) : list string :=
  take limit (split sep s).

(** White space skipped by [parseInt] (the ASCII part of StrWhiteSpaceChar:
    TAB, LF, VT, FF, CR, SP). *)
Definition is_white (c : ascii) : bool :=
  let n := N_of_ascii c in
  ((9 <=? n) && (n <=? 13))%N || (n =? 32)%N.

Fixpoint trim_start (s : string) : string :=
  match s with
  | String c s' => if is_white c then trim_start s' else s
  | EmptyString => EmptyString
  end.

(** The value of [c] as a digit of the given radix, if it is one. *)
Definition digit_value (radix : Z) (c : ascii) : option Z :=
  let n := Z.of_N (N_of_ascii c) in
  let v :=
    if (48 <=? n) && (n <=? 57) then Some (n - 48)
    else if (97 <=? n) && (n <=? 122) then Some (n - 87)
    else if (65 <=? n) && (n <=? 90) then Some (n - 55)
    else None in
  match v with
  | Some d => if d <? radix then Some d else None
  | None => None
  end.

(** The longest prefix of digits, read as a number; [None] when the
    prefix is empty. *)
Fixpoint read_digits (radix : Z) (s : string) (acc : option Z) : option Z :=
  match s with
  | EmptyString => acc
  | String c s' =>
      match digit_value radix c with
      | Some d => read_digits radix s' (Some (radix * default 0 acc + d))
      | None => acc
      end
  end.

(** [parseInt(s)] with no radix argument.  [None] stands for [NaN].  The
    integer is kept exact: a Number holds it exactly up to 2^53, and the
    sources only test the result with [isNaN] and store it. *)
Definition parseInt (s : string) : option Z :=
  let s1 := trim_start s in
  let '(sign, s2) :=
    match s1 with
    | String "-" r => (-1, r)
    | String "+" r => (1, r)
    | _ => (1, s1)
    end in
  let '(radix, s3) :=
    match s2 with
    | String "0" (String "x" r) => (16, r)
    | String "0" (String "X" r) => (16, r)
    | _ => (10, s2)
    end in
  (λ n, sign * n) <$> read_digits radix s3 None.

(** Truthiness of a string or [undefined]: only the empty string and
    [undefined] are falsy. *)
Definition truthy (s : option string) : bool :=
  match s with
  | Some (String _ _) => true
  | _ => false
  end.

End Js.

(** ** String operations behind the regular expressions of the sources *)

Module JsMore.

(** The rest of [s] after [p], when [s] starts with [p]. *)
Fixpoint strip_prefix (p s : string) : option string :=
  match p with
  | EmptyString => Some s
  | String c p' =>
      match s with
      | EmptyString => None
      | String d s' => if Ascii.eqb c d then strip_prefix p' s' else None
      end
  end.

(** A line terminator, which [.] does not match (LF and CR; the two
    others, U+2028 and U+2029, are not characters of a [string]). *)
Definition is_line_terminator (c : ascii) : bool :=
  let n := N_of_ascii c in
  ((n =? 10) || (n =? 13))%N.

(** [s] matches [.*[^/]$] from its start: every character but the last
    is not a line terminator, and the last is not a slash. *)
Fixpoint dots_then_no_slash (s : string) : bool :=
  match s with
  | EmptyString => false
  | String c s' =>
      match s' with
      | EmptyString => negb (Ascii.eqb c "/")
      | String _ _ => negb (is_line_terminator c) && dots_then_no_slash s'
      end
  end.

End JsMore.

(** ** [src/config.ts] *)

Module Config.

(** [O.Point] of the Ogmios schema. *)
Record Point := { slot : Z; hash : string }.

(** The value of [CHAIN_INDEX_BEGIN]: ["origin" | "tip" | O.Point]. *)
Inductive Begin :=
| Origin
| Tip
| At (p : Point).

(** The value of [CHAIN_INDEX_END]: ["tip" | O.Slot]. *)
Inductive End :=
| EndTip
| EndSlot (s : Z).

(** The chain configuration file after [loadConfig]; [loadConfig] is not
    part of the files at hand, so only the fields that [config.ts] and
    [index.ts] read are kept. *)
Record HashesTreasury := {
  dedicated : list string;
  shared : list string;
  open : list string
}.
Record ChainFile := {
  bootstrap : list Point;
  hashesTreasury : HashesTreasury
}.

(** [Number(process.env.CHAIN_INDEX_END_DELAY || 0)]: the text handed to
    [Number], which is not interpreted here. *)
Inductive Delay :=
| DelayZero
| DelayOf (raw : string).

Record ChainConfig := {
  CHAIN_INDEX_BEGIN : Begin;
  CHAIN_INDEX_END : option End;
  CHAIN_INDEX_END_DELAY : Delay;
  CONFIG : ChainFile
}.

(** [requiredEnv] *)
Definition requiredEnv (env : gmap string string) (key : string) : result string :=
  let value := env !! key in
  if Js.truthy value then Ok (default EmptyString value)
  else Throw (key +:+ " must be set").

(** [parseChainIndexBegin] *)
Definition parseChainIndexBegin (raw : option string) : result (option Begin) :=
  if negb (Js.truthy raw) then Ok None
  else
    let raw := default EmptyString raw in
    if String.eqb raw "origin" then Ok (Some Origin)
    else if String.eqb raw "tip" then Ok (Some Tip)
    else
      let parts := Js.split_limit ":" 2 raw in
      let slotStr := default EmptyString (parts !! 0%nat) in
      let hash := parts !! 1%nat in
      let slot := Js.parseInt slotStr in
      _ ← assert (bool_decide (is_Some slot) && Js.truthy hash)
                 "Must be <slot>:<hash>";
      Ok (Some (At {| slot := default 0 slot;
                      hash := default EmptyString hash |})).

(** [parseChainIndexEnd] *)
Definition parseChainIndexEnd (raw : option string) : result (option End) :=
  if negb (Js.truthy raw) then Ok None
  else
    let raw := default EmptyString raw in
    if String.eqb raw "tip" then Ok (Some EndTip)
    else
      let slot := Js.parseInt raw in
      _ ← assert (bool_decide (is_Some slot)) "Must be <slot>";
      Ok (Some (EndSlot (default 0 slot))).

Section chain.
(** Reading the file named by [CHAIN_INDEX_CONFIG], [YAML.parse] and
    [loadConfig]; any of them may throw. *)
Variable readConfig : string → result ChainFile.
Variable env : gmap string string.

(** [config.chain] (the body under [cached]). *)
Definition chain : result ChainConfig :=
  path ← requiredEnv env "CHAIN_INDEX_CONFIG";
  config ← readConfig path;
  let bootstrap := head (bootstrap config) in
  parsed ← parseChainIndexBegin (env !! "CHAIN_INDEX_BEGIN");
  let begin :=
    match parsed with
    | Some b => Some b
    | None => At <$> bootstrap
    end in
  match begin with
  | None => Throw "CHAIN_INDEX_BEGIN or 'bootstrap' in config must be set"
  | Some begin =>
      end_ ← parseChainIndexEnd (env !! "CHAIN_INDEX_END");
      Ok {| CHAIN_INDEX_BEGIN := begin;
            CHAIN_INDEX_END := end_;
            CHAIN_INDEX_END_DELAY :=
              (let raw := env !! "CHAIN_INDEX_END_DELAY" in
               if Js.truthy raw then DelayOf (default EmptyString raw)
               else DelayZero);
            CONFIG := config |}
  end.
End chain.

End Config.

(** ** [src/config.ts], the Cardano settings *)

Module ConfigMore.
Import Config.

Record Cardano := {
  NETWORK : string;
  CEXPLORER_URL : string
}.

(** [/^(http|https):\/\/.*[^/]$/.test(url)] *)
Definition cexplorer_url_ok (url : string) : bool :=
  match JsMore.strip_prefix "http://" url with
  | Some rest => JsMore.dots_then_no_slash rest
  | None => false
  end ||
  match JsMore.strip_prefix "https://" url with
  | Some rest => JsMore.dots_then_no_slash rest
  | None => false
  end.

(** [config.cardano] (the body under [cached]). *)
Definition cardano (env : gmap string string) : result Cardano :=
  network ← requiredEnv env "NETWORK";
  _ ← assert (String.eqb network "preview" || String.eqb network "preprod"
              || String.eqb network "mainnet")
             "Network must be either: preview, preprod, mainnet.";
  cexplorerUrl ← requiredEnv env "CEXPLORER_URL";
  _ ← assert (cexplorer_url_ok cexplorerUrl)
             ("Cexplorer url must starts with " +:+
              "'http://' or 'https://' and must not end with '/'");
  Ok {| NETWORK := network; CEXPLORER_URL := cexplorerUrl |}.

End ConfigMore.

(** ** [src/indexers/ai/logo.ts] *)

Module Logo.

(** *** The schema objects that [setup] creates

    A database is a map from schema names to the relations of the schema,
    by name.  Tables and indexes of one schema share one name space, as
    in PostgreSQL. *)

Record Column := {
  col_name : string;
  col_type : string;
  col_constraint : string
}.

Inductive Relation :=
| Table (columns : list Column)
| Index (on_table : string) (on_columns : list string)
| OtherRelation (kind : string).

#[export] Instance Column_eq_dec : EqDecision Column.
Proof. solve_decision. Defined.

(** [CREATE TABLE IF NOT EXISTS schema.name (columns)]: an error when the
    schema is missing; skipped when a relation of that name exists. *)
Definition create_table_if_not_exists (schema name : string)
    (columns : list Column)
    (db : gmap string (gmap string Relation))
    : result (gmap string (gmap string Relation)) :=
  match db !! schema with
  | None => Throw ("schema " +:+ schema +:+ " does not exist")
  | Some rels =>
      match rels !! name with
      | Some _ => Ok db
      | None => Ok (<[schema := <[name := Table columns]> rels]> db)
      end
  end.

(** [CREATE INDEX IF NOT EXISTS name ON schema.table (column)]: the table
    and the column are looked up first (an error when either is missing);
    then the statement is skipped when a relation called [name] exists in
    the schema of the table. *)
Definition create_index_if_not_exists (name schema table column : string)
    (db : gmap string (gmap string Relation))
    : result (gmap string (gmap string Relation)) :=
  match db !! schema with
  | None => Throw ("schema " +:+ schema +:+ " does not exist")
  | Some rels =>
      match rels !! table with
      | Some (Table columns) =>
          if bool_decide (column ∈ col_name <$> columns) then
            match rels !! name with
            | Some _ => Ok db
            | None => Ok (<[schema := <[name := Index table [column]]> rels]> db)
            end
          else Throw ("column " +:+ column +:+ " does not exist")
      | Some _ => Throw (table +:+ " is not a table")
      | None => Throw ("relation " +:+ table +:+ " does not exist")
      end
  end.

Definition logo_columns : list Column :=
  [ {| col_name := "cid"; col_type := "TEXT"; col_constraint := "PRIMARY KEY" |};
    {| col_name := "letter"; col_type := "varchar(1)"; col_constraint := "NOT NULL" |};
    {| col_name := "etag"; col_type := "TEXT"; col_constraint := "" |} ].

(** [aiLogoIndexer.setup]: two statements, each committed on its own; the
    second is not reached when the first throws.  The result is the
    database afterwards and whether the call threw. *)
Definition setup (db : gmap string (gmap string Relation))
    : gmap string (gmap string Relation) * result unit :=
  match create_table_if_not_exists "ai" "logo" logo_columns db with
  | Throw msg => (db, Throw msg)
  | Ok db1 =>
      match create_index_if_not_exists "logo_letter_index" "ai" "logo" "letter" db1 with
      | Throw msg => (db1, Throw msg)
      | Ok db2 => (db2, Ok tt)
      end
  end.

(** *** The indexer *)

(** A row of [ai.logo]. *)
Record LogoRow := {
  cid : string;
  letter : string;
  row_etag : option string
}.

(** [Task] *)
Record Task := {
  key : string;
  etag : option string
}.

(** An entry of [Contents] in a [ListObjectsV2] response. *)
Record S3Object := {
  Key : option string;
  ETag : option string
}.

(** The listing of the bucket under the prefix: the response to the first
    request, then the responses reached through the continuation tokens.
    [None] is a response without [Contents]. *)
Record Listing := {
  first_page : option (list S3Object);
  next_pages : list (option (list S3Object))
}.

(** [SELECT etag FROM ai.logo WHERE etag IS NOT NULL] *)
Definition select_etags (rows : list LogoRow) : list string :=
  omap row_etag rows.

(** [initialize]: every selected etag is added to [context.fetched]. *)
Definition initialize (rows : list LogoRow) (fetched : gset string) : gset string :=
  foldl (λ fetched etag, {[etag]} ∪ fetched) fetched (select_etags rows).

(** [etag == null || !fetched.has(etag)] *)
Definition is_new (fetched : gset string) (etag : option string) : bool :=
  match etag with
  | None => true
  | Some e => negb (bool_decide (e ∈ fetched))
  end.

Record FetchState := {
  tasks : list Task;
  skipped : nat
}.

(** The loop over [contents] in [fetchSinglePage]. *)
Fixpoint scan_contents (fetched : gset string) (contents : list S3Object)
    (st : FetchState) : result FetchState :=
  match contents with
  | [] => Ok st
  | obj :: rest =>
      _ ← assert (Js.truthy (Key obj)) "S3 Object Key must be defined";
      let etag := ETag obj in
      if is_new fetched etag
      then scan_contents fetched rest
             {| tasks := tasks st ++ [ {| key := default EmptyString (Key obj);
                                          etag := etag |} ];
                skipped := skipped st |}
      else scan_contents fetched rest
             {| tasks := tasks st; skipped := S (skipped st) |}
  end.

(** [fetchSinglePage] *)
Definition fetchSinglePage (fetched : gset string)
    (contents : option (list S3Object)) (st : FetchState) : result FetchState :=
  _ ← assert (bool_decide (is_Some contents)) "S3 Contents must be defined";
  scan_contents fetched (default [] contents) st.

(** The [do ... while] of [fetchTasksFromS3], after the first page. *)
Fixpoint fetch_pages (fetched : gset string)
    (pages : list (option (list S3Object))) (st : FetchState) : result FetchState :=
  match pages with
  | [] => Ok st
  | page :: rest =>
      st' ← fetchSinglePage fetched page st;
      fetch_pages fetched rest st'
  end.

(** [fetchTasksFromS3] *)
Definition fetchTasksFromS3 (s3 : Listing) (fetched : gset string) : result FetchState :=
  fetch_pages fetched (first_page s3 :: next_pages s3)
    {| tasks := []; skipped := 0 |}.

(** [fetch] of the indexer: the tasks of the cycle and [continue: false];
    the number of skipped objects is logged. *)
Definition fetch (s3 : Listing) (fetched : gset string)
    : result (string * (list Task * bool)) :=
  r ← fetchTasksFromS3 s3 fetched;
  Ok ("[ai.logo] Skipped " +:+ pretty (skipped r) +:+ " S3 objects",
      (tasks r, false)).

(** *** [handle] *)

(** [\w] of a regular expression without flags. *)
Definition is_word (c : ascii) : bool :=
  let n := N_of_ascii c in
  (((48 <=? n) && (n <=? 57)) || ((65 <=? n) && (n <=? 90)) ||
   ((97 <=? n) && (n <=? 122)) || (n =? 95))%N.

(** [[a-zA-Z]] *)
Definition is_letter (c : ascii) : bool :=
  let n := N_of_ascii c in
  (((65 <=? n) && (n <=? 90)) || ((97 <=? n) && (n <=? 122)))%N.

(** [toUpperCase] on one character of [[a-zA-Z]]. *)
Definition upper (c : ascii) : ascii :=
  let n := N_of_ascii c in
  if ((97 <=? n) && (n <=? 122))%N then ascii_of_N (n - 32) else c.

(** The rest of [s] after its longest prefix of word characters. *)
Fixpoint skip_word (s : string) : string :=
  match s with
  | String c s' => if is_word c then skip_word s' else s
  | EmptyString => EmptyString
  end.

Definition LOGO_S3_PREFIX : string := "logos/".

(** [key.match(S3_KEY_PATTERN)?.[1]], where [S3_KEY_PATTERN] is
    [^logos/\w+/([a-zA-Z])/].  A word character is never a slash, so
    [\w+] can only stand for the whole run of word characters after the
    prefix. *)
Definition key_letter (key : string) : option ascii :=
  match JsMore.strip_prefix LOGO_S3_PREFIX key with
  | Some (String c rest) =>
      if is_word c then
        match skip_word rest with
        | String "/" (String l (String "/" _)) =>
            if is_letter l then Some l else None
        | _ => None
        end
      else None
  | _ => None
  end.

(** What [GetObject] answers. *)
Record GetObjectOutput := {
  res_ETag : option string;
  Body : option string
}.

(** [INSERT INTO ai.logo (cid, letter, etag) ... ON CONFLICT (cid) DO
    UPDATE SET etag = EXCLUDED.etag] on the table, as a map from [cid]
    (the primary key) to the letter and the etag of the row. *)
Definition upsert (cid : string) (letter : string) (etag : option string)
    (table : gmap string (string * option string))
    : gmap string (string * option string) :=
  match table !! cid with
  | Some (l, _) => <[cid := (l, etag)]> table
  | None => <[cid := (letter, etag)]> table
  end.

(** The rows of the table. *)
Definition rows_of (table : gmap string (string * option string)) : list LogoRow :=
  (λ r : string * (string * option string),
     {| cid := r.1; letter := r.2.1; row_etag := r.2.2 |})
  <$> map_to_list table.

Section handle.
(** [s3.send(new GetObjectCommand({Bucket, Key, IfMatch}))] for the bucket
    of the context, [ipfs.add(body, {pin: true})] reduced to the [cid] it
    returns, and whether the [INSERT] goes through. *)
Variable getObject : string → option string → result GetObjectOutput.
Variable ipfs_add : string → result string.
Variable insert_error : option string.

(** [handle]: the fetched set and the table afterwards, and whether the
    call threw. *)
Definition handle (fetched : gset string)
    (table : gmap string (string * option string)) (task : Task)
    : (gset string * gmap string (string * option string)) * result unit :=
  match key_letter (key task) with
  | None => ((fetched, table), Throw ("Malformed logo S3 key: " +:+ key task))
  | Some l =>
      let letter := String (upper l) EmptyString in
      match getObject (key task) (etag task) with
      | Throw msg => ((fetched, table), Throw msg)
      | Ok res =>
          let etag := res_ETag res in
          match Body res with
          | None =>
              ((fetched, table), Throw ("S3 " +:+ key task +:+ " has no body"))
          | Some body =>
              match ipfs_add body with
              | Throw msg => ((fetched, table), Throw msg)
              | Ok cid =>
                  let fetched :=
                    match etag with
                    | None => fetched
                    | Some e => {[e]} ∪ fetched
                    end in
                  match insert_error with
                  | Some msg => ((fetched, table), Throw msg)
                  | None => ((fetched, upsert cid letter etag table), Ok tt)
                  end
              end
          end
      end
  end.
End handle.

End Logo.

(** ** [src/index.ts] *)

Module Index.
Import Config.

(** [config.Env] *)
Inductive Env := development | testnet | mainnet.

Definition Env_name (e : Env) : string :=
  match e with
  | development => "development"
  | testnet => "testnet"
  | mainnet => "mainnet"
  end.

(** [AllIndexerKeys = objectKeys(AllIndexers)]: the names of the registry
    in the order of the object literal. *)
Definition AllIndexerKeys : list string :=
  [ "chain";
    "ipfs.project_info";
    "ipfs.project_announcement";
    "ai.logo";
    "ai.podcast";
    "ai.ocr";
    "ai.project_moderation";
    "discord.project_alert";
    "discord.backing_alert";
    "discord.withdraw_funds_alert";
    "discord.delegation_alert";
    "discord.project_update_alert";
    "discord.project_moderation_alert";
    "discord.kolour_nft_alert";
    "discord.genesis_kreation_nft_alert" ].

(** [s] between double quotes. *)
Definition quoted (s : string) : string :=
  String "034"%char (s +:+ String "034"%char EmptyString).

(** [l.includes(x)] *)
Definition includes (l : list string) (x : string) : bool :=
  bool_decide (x ∈ l).

(** [l.indexOf(x)] *)
Fixpoint indexOf (l : list string) (x : string) : Z :=
  match l with
  | [] => -1
  | y :: l' =>
      if String.eqb y x then 0
      else let i := indexOf l' x in
           if i <? 0 then -1 else i + 1
  end.

(** [DisabledIndexers], a partial record over [Env]. *)
Definition DisabledIndexers (e : Env) : option (list string) :=
  match e with
  | development =>
      Some (filter (λ k, Js.startsWith k "ai." || Js.startsWith k "discord.")
                   AllIndexerKeys)
  | _ => None
  end.

(** [disabled = DisabledIndexers[config.ENV] ?? []] *)
Definition disabled (ENV : Env) : list string :=
  default [] (DisabledIndexers ENV).

(** The lines printed when there is no argument. *)
Definition usage (ENV : Env) : list string :=
  ["Arguments:"; "* all"; "+ setup"] ++
  ((λ o, (if includes (disabled ENV) o then "." else "-") +:+ " " +:+ o)
     <$> AllIndexerKeys).

(** The loop under [if (includesAll)]: the warnings logged and the
    arguments after the pushes. *)
Definition pushAll (ENV : Env) (includesAll : bool) (args : list string)
    : list string * list string :=
  foldl (λ (acc : list string * list string) name,
           let '(warnings, args) := acc in
           if String.eqb name "chain" && negb includesAll then (warnings, args)
           else if includes (disabled ENV) name then
             (warnings ++ ["[" +:+ name +:+ "] is disabled by default on {"
                           +:+ Env_name ENV +:+ "}"], args)
           else (warnings, args ++ [name]))
        ([], args) AllIndexerKeys.

(** The callback of [args.flatMap]. *)
Definition expandArg (arg : string) : result (list string) :=
  if Js.endsWith arg "." then
    let expanded := filter (λ k, Js.startsWith k arg) AllIndexerKeys in
    if bool_decide (expanded = []) then
      Throw ("No indexer with prefix: " +:+ arg)
    else Ok expanded
  else Ok [arg].

(** [args.flatMap(...)], which stops at the first callback that throws. *)
Fixpoint expandArgs (args : list string) : result (list string) :=
  match args with
  | [] => Ok []
  | arg :: rest =>
      expanded ← expandArg arg;
      others ← expandArgs rest;
      Ok (expanded ++ others)
  end.

(** [Array.from(new Set(l))]: the first occurrence of each element, in
    order. *)
Fixpoint uniq (seen l : list string) : list string :=
  match l with
  | [] => []
  | x :: l' =>
      if includes seen x then uniq seen l' else x :: uniq (x :: seen) l'
  end.

(** [.sort((a, b) => a[0] - b[0])]: a stable sort on the first component,
    here by insertion. *)
Fixpoint insert_sorted (x : Z * string) (l : list (Z * string)) : list (Z * string) :=
  match l with
  | [] => [x]
  | y :: l' => if x.1 <=? y.1 then x :: y :: l' else y :: insert_sorted x l'
  end.

Definition sort_by_index (l : list (Z * string)) : list (Z * string) :=
  foldr insert_sorted [] l.

Definition sorted (expandedArgs : list string) : list (Z * string) :=
  sort_by_index ((λ name, (indexOf AllIndexerKeys name, name)) <$> uniq [] expandedArgs).

(** The loop over [sorted]: [willSetup] and the indexers pushed. *)
Fixpoint collect (sorted : list (Z * string)) (willSetup : bool)
    (indexers : list string) : result (bool * list string) :=
  match sorted with
  | [] => Ok (willSetup, indexers)
  | (index, name) :: rest =>
      if String.eqb name "setup" || String.eqb name "all" then
        collect rest true indexers
      else if index <? 0 then Throw ("Unexpected indexer: " +:+ name)
      else collect rest willSetup (indexers ++ [name])
  end.

(** The outcome of the synchronous part of the script, up to the line
    that prints the selected indexers. *)
Inductive Selection :=
| Usage (lines : list string)
| Fatal (warnings : list string) (msg : string)
| Selected (warnings : list string) (willSetup : bool) (indexers : list string).

Definition select (ENV : Env) (argv : list string) : Selection :=
  let args := argv in
  if bool_decide (args = []) then Usage (usage ENV)
  else
    let includesAll := includes args "all" in
    let '(warnings, args) :=
      if includesAll then pushAll ENV includesAll args else ([], args) in
    match expandArgs args with
    | Throw msg => Fatal warnings msg
    | Ok expandedArgs =>
        match collect (sorted expandedArgs) false [] with
        | Throw msg => Fatal warnings msg
        | Ok (willSetup, indexers) => Selected warnings willSetup indexers
        end
    end.

(** *** The process

    What the script does after the arguments are processed is a sequence
    of steps, each run to its next [await].  Between two steps the process
    may receive an input: a notification on the channel it listens on, an
    operating system signal, or an error raised outside the script. *)

(** The [begin] handed to [indexer.start]: a keyword as it is, a point in
    an array of one element. *)
Inductive StartBegin :=
| FromOrigin
| FromTip
| FromPoints (points : list Point).

Definition start_begin (b : Begin) : StartBegin :=
  match b with
  | Origin => FromOrigin
  | Tip => FromTip
  | At p => FromPoints [p]
  end.

(** The [end] handed to [indexer.start]. *)
Definition start_end (cc : ChainConfig) : option (End * Delay) :=
  match CHAIN_INDEX_END cc with
  | None => None
  | Some at_ => Some (at_, CHAIN_INDEX_END_DELAY cc)
  end.

(** What the process does to the outside, in order.  [ChainStart] is the
    call of [indexer.start] of the chain indexer; [ChainIntersectionFound]
    is the line logged when that call has returned its intersection, just
    before [run] returns the callback. *)
Inductive event :=
| ConsoleLog (line : string)
| ConsoleWarn (line : string)
| ConsoleError (line : string)
| ListenOn (channel : string)
| SetupSchemas
| IndexerSetup (name : string)
| SetupAdminTables
| SetupMigrationTables
| SetupViews
| StakingStart
| ChainStart (begin : StartBegin) (end_ : option (End * Delay))
| ChainIntersectionFound
| PollingStart (name : string)
| ChainStop (immediate saveCheckpoint : bool)
| StakingStop
| PollingStop (name : string)
| ConnectionsCleanup
| ProcessExit (code : Z).

(** The callbacks that [run] returns: the closure of the chain indexer,
    and [indexer.stop] bound to a polling indexer. *)
Inductive shutdown :=
| ChainShutdown
| PollingShutdown (name : string).

(** The steps of the script after the arguments are processed. *)
Inductive step :=
| SListen
| SSetupSchemas
| SSetupIndexers
| SSetupAdminTables
| SSetupMigrationTables
| SSetupViews
| SChainConfig
| SChainStaking
| SChainStart
| SChainStarted
| SPolling (name : string)
| SExit0.

Record machine := {
  willSaveCheckpoint : bool;
  shutdowns : list shutdown;
  exitCode : option Z;
  listening : bool;
  script : list step;
  trace : list event;
  exited : option Z
}.

Definition emit (es : list event) (m : machine) : machine :=
  {| willSaveCheckpoint := willSaveCheckpoint m;
     shutdowns := shutdowns m;
     exitCode := exitCode m;
     listening := listening m;
     script := script m;
     trace := trace m ++ es;
     exited := exited m |}.

Definition set_willSaveCheckpoint (b : bool) (m : machine) : machine :=
  {| willSaveCheckpoint := b;
     shutdowns := shutdowns m;
     exitCode := exitCode m;
     listening := listening m;
     script := script m;
     trace := trace m;
     exited := exited m |}.

Definition push_shutdown (cb : shutdown) (m : machine) : machine :=
  {| willSaveCheckpoint := willSaveCheckpoint m;
     shutdowns := shutdowns m ++ [cb];
     exitCode := exitCode m;
     listening := listening m;
     script := script m;
     trace := trace m;
     exited := exited m |}.

Definition set_exitCode (c : option Z) (m : machine) : machine :=
  {| willSaveCheckpoint := willSaveCheckpoint m;
     shutdowns := shutdowns m;
     exitCode := c;
     listening := listening m;
     script := script m;
     trace := trace m;
     exited := exited m |}.

Definition set_listening (b : bool) (m : machine) : machine :=
  {| willSaveCheckpoint := willSaveCheckpoint m;
     shutdowns := shutdowns m;
     exitCode := exitCode m;
     listening := b;
     script := script m;
     trace := trace m;
     exited := exited m |}.

Definition set_script (s : list step) (m : machine) : machine :=
  {| willSaveCheckpoint := willSaveCheckpoint m;
     shutdowns := shutdowns m;
     exitCode := exitCode m;
     listening := listening m;
     script := s;
     trace := trace m;
     exited := exited m |}.

(** The process ends with the given status. *)
Definition exit_with (code : Z) (m : machine) : machine :=
  {| willSaveCheckpoint := willSaveCheckpoint m;
     shutdowns := shutdowns m;
     exitCode := exitCode m;
     listening := listening m;
     script := script m;
     trace := trace m ++ [ProcessExit code];
     exited := Some code |}.

(** [os.constants.signals], as Node defines it on Linux. *)
Definition os_constants_signals : list (string * Z) :=
  [ ("SIGHUP", 1); ("SIGINT", 2); ("SIGQUIT", 3); ("SIGILL", 4);
    ("SIGTRAP", 5); ("SIGABRT", 6); ("SIGIOT", 6); ("SIGBUS", 7);
    ("SIGFPE", 8); ("SIGKILL", 9); ("SIGUSR1", 10); ("SIGSEGV", 11);
    ("SIGUSR2", 12); ("SIGPIPE", 13); ("SIGALRM", 14); ("SIGTERM", 15);
    ("SIGCHLD", 17); ("SIGSTKFLT", 16); ("SIGCONT", 18); ("SIGSTOP", 19);
    ("SIGTSTP", 20); ("SIGTTIN", 21); ("SIGTTOU", 22); ("SIGURG", 23);
    ("SIGXCPU", 24); ("SIGXFSZ", 25); ("SIGVTALRM", 26); ("SIGPROF", 27);
    ("SIGWINCH", 28); ("SIGIO", 29); ("SIGPOLL", 29); ("SIGPWR", 30);
    ("SIGSYS", 31) ].

Fixpoint signal_number (table : list (string * Z)) (signal : string) : option Z :=
  match table with
  | [] => None
  | (name, n) :: rest =>
      if String.eqb name signal then Some n else signal_number rest signal
  end.

(** Calling a shutdown callback.  The closure of the chain indexer reads
    [willSaveCheckpoint] when it is called. *)
Definition call_shutdown (m : machine) (cb : shutdown) : machine :=
  match cb with
  | ChainShutdown =>
      emit [ChainStop true (willSaveCheckpoint m); StakingStop] m
  | PollingShutdown name => emit [PollingStop name] m
  end.

(** The function registered with [prexit] (lines 41-56).  [error] is
    [None] for [null] or [undefined].  The first line logged holds the
    time since the start, which is not computed here. *)
Definition on_prexit (signal : string) (error : option string) (m : machine) : machine :=
  let m := emit [ConsoleWarn "$ TIME"; ConsoleWarn ("$ EXIT: " +:+ signal)] m in
  let m := foldl call_shutdown m (reverse (shutdowns m)) in
  let m := emit [ConnectionsCleanup] m in
  let m :=
    if bool_decide (exitCode m = None) && bool_decide (is_Some error) then
      set_exitCode (Some (default 1 (signal_number os_constants_signals signal))) m
    else m in
  let m :=
    if String.eqb signal "uncaughtException" then
      emit [ConsoleError "!! UNCAUGHT EXCEPTION !!"] m
    else if String.eqb signal "unhandledRejection" then
      emit [ConsoleError "!! UNHANDLED REJECTION !!"] m
    else m in
  emit [ConsoleLog "=== GOOD BYE ==="] m.

(** Modelled from the spec: [./prexit] is missing.  Signals, uncaught
    errors and unhandled rejections all route to one shutdown path: the
    registered function is called with the name of what happened and a
    value that is not null, and when it has completed the process exits
    with [process.exitCode], or 0 when none was set. *)
Definition prexit_fire (signal : string) (error : option string) (m : machine) : machine :=
  let m := on_prexit signal error m in
  exit_with (default 0 (exitCode m)) m.

(** Modelled from the spec: [prexit.exit(code)] of the missing [./prexit]
    starts the same shutdown path with the given status as
    [process.exitCode], and with no error. *)
Definition prexit_exit (code : Z) (m : machine) : machine :=
  prexit_fire "exit" None (set_exitCode (Some code) m).

(** Modelled from the spec: [prexit.exit0()] of the missing [./prexit] is
    the clean exit, with status 0. *)
Definition prexit_exit0 (m : machine) : machine :=
  prexit_exit 0 m.

(** An [Error] thrown by the script itself reaches the process as an
    uncaught exception. *)
Definition throw_top (msg : string) (m : machine) : machine :=
  prexit_fire "uncaughtException" (Some msg) m.

(** The callback given to [notifications.listen] (lines 303-312). *)
Definition on_notification (payload : string) (m : machine) : machine :=
  if String.eqb payload "reload" then
    let m := emit [ConsoleLog "Received signal: reload"] m in
    let m := set_willSaveCheckpoint false m in
    prexit_exit 174 m
  else emit [ConsoleWarn ("Unrecognized signal: " +:+ payload)] m.

(** The steps of [run] for one indexer. *)
Definition run_steps (name : string) : list step :=
  if String.eqb name "chain" then
    [SChainConfig; SChainStaking; SChainStart; SChainStarted]
  else [SPolling name].

(** The steps that follow the processing of the arguments (lines
    300-333). *)
Definition main_script (willSetup : bool) (indexers : list string) : list step :=
  [SListen] ++
  (if willSetup then
     [SSetupSchemas; SSetupIndexers; SSetupAdminTables;
      SSetupMigrationTables; SSetupViews]
   else []) ++
  (if bool_decide (indexers = []) then [SExit0]
   else indexers ≫= run_steps).

Definition initial : machine :=
  {| willSaveCheckpoint := true;
     shutdowns := [];
     exitCode := None;
     listening := false;
     script := [];
     trace := [];
     exited := None |}.

Section process.
(** The result of [config.chain()] in this process. *)
Variable cc : result ChainConfig.

(** One step of the script.  [SChainConfig] is the call of
    [config.chain()] that opens [run] of the chain indexer; the steps of
    [run] after it are not reached when it throws. *)
Definition do_step (s : step) (m : machine) : machine :=
  match s with
  | SListen =>
      emit [ListenOn "index";
            ConsoleLog ("Listening on " +:+ quoted "index" +:+ " for signals...")]
           (set_listening true m)
  | SSetupSchemas => emit [SetupSchemas] m
  | SSetupIndexers => emit (IndexerSetup <$> AllIndexerKeys) m
  | SSetupAdminTables => emit [SetupAdminTables] m
  | SSetupMigrationTables => emit [SetupMigrationTables] m
  | SSetupViews => emit [SetupViews] m
  | SChainConfig =>
      match cc with
      | Throw msg => throw_top msg m
      | Ok _ => m
      end
  | SChainStaking => emit [StakingStart] m
  | SChainStart =>
      match cc with
      | Throw _ => m
      | Ok cc =>
          emit [ChainStart (start_begin (CHAIN_INDEX_BEGIN cc)) (start_end cc)] m
      end
  | SChainStarted =>
      push_shutdown ChainShutdown (emit [ChainIntersectionFound] m)
  | SPolling name =>
      push_shutdown (PollingShutdown name) (emit [PollingStart name] m)
  | SExit0 =>
      prexit_exit0 (emit [ConsoleWarn "No indexer specified, I'm done!"] m)
  end.

(** The script runs its next step, unless the process has exited or the
    script has come to its end. *)
Definition tick (m : machine) : machine :=
  match exited m, script m with
  | None, s :: rest => do_step s (set_script rest m)
  | _, _ => m
  end.

(** What the process may receive while it runs. *)
Inductive input :=
| Notify (payload : string)
| Signal (name : string)
| UncaughtException (msg : string)
| UnhandledRejection (msg : string).

Definition receive (i : input) (m : machine) : machine :=
  match exited m with
  | Some _ => m
  | None =>
      match i with
      | Notify payload =>
          if listening m then on_notification payload m else m
      | Signal name => prexit_fire name (Some name) m
      | UncaughtException msg => prexit_fire "uncaughtException" (Some msg) m
      | UnhandledRejection msg => prexit_fire "unhandledRejection" (Some msg) m
      end
  end.

(** A run of the process: the script advances ([None]) or an input is
    received ([Some i]). *)
Definition advance (m : machine) (o : option input) : machine :=
  match o with
  | None => tick m
  | Some i => receive i m
  end.

Definition exec (schedule : list (option input)) (m : machine) : machine :=
  foldl advance m schedule.

(** The process from its start to the first [await] (lines 255-298). *)
Definition boot (ENV : Env) (argv : list string) : machine :=
  match select ENV argv with
  | Usage lines =>
      exit_with 1 (set_exitCode (Some 1) (emit (ConsoleError <$> lines) initial))
  | Fatal warnings msg =>
      throw_top msg (emit (ConsoleWarn <$> warnings) initial)
  | Selected warnings willSetup indexers =>
      set_script (main_script willSetup indexers)
        (emit ((ConsoleWarn <$> warnings) ++
               ((λ name, ConsoleLog ("% " +:+ name)) <$> indexers))
              initial)
  end.

Definition run (ENV : Env) (argv : list string)
    (schedule : list (option input)) : machine :=
  exec schedule (boot ENV argv).
End process.

End Index.

(** ** Vocabulary of the statements *)

Module LogoSpec.
Import Logo.

(** Whether [fetchSinglePage] pushes a task for the object. *)
Definition emitted (fetched : gset string) (obj : S3Object) : bool :=
  is_new fetched (ETag obj).

(** The task pushed for an object. *)
Definition task_of (obj : S3Object) : Task :=
  {| key := default EmptyString (Key obj); etag := ETag obj |}.

(** The objects of a listing, page after page. *)
Definition listed (s3 : Listing) : list S3Object :=
  (first_page s3 :: next_pages s3) ≫= default [].

(** Every response has [Contents] and every object has a key. *)
Definition well_formed (s3 : Listing) : Prop :=
  Forall (λ page : option (list S3Object), is_Some page)
         (first_page s3 :: next_pages s3) ∧
  Forall (λ obj, Js.truthy (Key obj) = true) (listed s3).

(** A table with one row that has an etag and one that has none, and a
    listing in two pages. *)
Definition sample_rows : list LogoRow :=
  [ {| cid := "Qm1"; letter := "A"; row_etag := Some "e1" |};
    {| cid := "Qm2"; letter := "B"; row_etag := None |} ].

Definition sample_listing : Listing :=
  {| first_page :=
       Some [ {| Key := Some "logos/x/A/1.png"; ETag := Some "e1" |};
              {| Key := Some "logos/x/B/2.png"; ETag := Some "e2" |} ];
     next_pages :=
       [ Some [ {| Key := Some "logos/x/C/3.png"; ETag := None |} ] ] |}.

Definition sample_fetch : FetchState :=
  {| tasks := [ {| key := "logos/x/B/2.png"; etag := Some "e2" |};
                {| key := "logos/x/C/3.png"; etag := None |} ];
     skipped := 1 |}.

End LogoSpec.

Module ConfigSpec.
Import Config.



Definition missing_begin : string :=
  "CHAIN_INDEX_BEGIN or 'bootstrap' in config must be set".


(** A configuration file with one bootstrap point, and environments that
    name it. *)
Definition sample_point : Point := {| slot := 1; hash := "ab" |}.

Definition sample_file : ChainFile :=
  {| bootstrap := [sample_point];
     hashesTreasury := {| dedicated := []; shared := []; open := [] |} |}.

Definition sample_readConfig (path : string) : result ChainFile :=
  if String.eqb path "chain.yaml" then Ok sample_file
  else Throw "ENOENT: no such file or directory".

Definition env_with_begin (raw : string) : gmap string string :=
  <["CHAIN_INDEX_BEGIN" := raw]> {["CHAIN_INDEX_CONFIG" := "chain.yaml"]}.

End ConfigSpec.

Module IndexSpec.
Import Index.

(** The two arguments that are not names of indexers but ask for the
    setup phase. *)
Definition is_directive (name : string) : bool :=
  String.eqb name "setup" || String.eqb name "all".

(** What an argument stands for: the registered names that have it as a
    prefix when it ends in a dot, itself otherwise. *)
Definition expansion (arg : string) : list string :=
  if Js.endsWith arg "." then filter (λ k, Js.startsWith k arg) AllIndexerKeys
  else [arg].

(** An argument that is accepted: a prefix of some registered name when it
    ends in a dot; otherwise [all], [setup] or a registered name. *)
Definition valid_arg (arg : string) : bool :=
  if Js.endsWith arg "." then negb (bool_decide (expansion arg = []))
  else is_directive arg || includes AllIndexerKeys arg.

(** The name is given by an argument: it is an argument, or it is
    registered and an argument ending in a dot is a prefix of it. *)
Definition named_by (argv : list string) (name : string) : bool :=
  existsb (λ arg, includes (expansion arg) name) argv.

(** The name is to run: it is given by an argument, or [all] is an
    argument and the name is not disabled in the environment. *)
Definition wanted (ENV : Env) (argv : list string) (name : string) : bool :=
  named_by argv name ||
  (includes argv "all" && negb (includes (disabled ENV) name)).

(** The registered names that are to run, in the order of the registry. *)
Definition selected (ENV : Env) (argv : list string) : list string :=
  filter (λ k, wanted ENV argv k) AllIndexerKeys.

Definition disabled_warning (ENV : Env) (name : string) : string :=
  "[" +:+ name +:+ "] is disabled by default on {" +:+ Env_name ENV +:+ "}".

(** A prefix argument that matches no registered name makes
    [expandArg] throw; every other argument is expandable. *)
Definition expandable (arg : string) : bool :=
  negb (Js.endsWith arg "." && bool_decide (expansion arg = [])).

(** The arguments after the pushes under [all]. *)
Definition prepared (ENV : Env) (argv : list string) : list string :=
  if includes argv "all" then
    argv ++ filter (λ k, ¬ includes (disabled ENV) k) AllIndexerKeys
  else argv.

(** The warnings logged under [all]. *)
Definition warnings_of (ENV : Env) (argv : list string) : list string :=
  if includes argv "all" then disabled_warning ENV <$> disabled ENV else [].

(** The order that [sort] is given. *)
Definition by_index (a b : Z * string) : Prop := a.1 ≤ b.1.

Definition tag (name : string) : Z * string :=
  (indexOf AllIndexerKeys name, name).

(** The registry order on names. *)
Definition before (a b : string) : Prop :=
  indexOf AllIndexerKeys a < indexOf AllIndexerKeys b.

#[export] Instance before_dec : RelDecision before.
Proof. intros a b. unfold before. apply _. Defined.

(** *** Vocabulary for the runs of the process *)

(** The events by which an indexer is started. *)
Definition is_start (e : event) : bool :=
  match e with
  | StakingStart | ChainStart _ _ | PollingStart _ => true
  | _ => false
  end.

(** The events of the setup phase, in the order of the script. *)
Definition setup_events : list event :=
  [SetupSchemas] ++ (IndexerSetup <$> AllIndexerKeys) ++
  [SetupAdminTables; SetupMigrationTables; SetupViews].

(** The events that only the script itself produces, step by step. *)
Definition is_script_event (e : event) : bool :=
  match e with
  | ListenOn _ | SetupSchemas | IndexerSetup _ | SetupAdminTables
  | SetupMigrationTables | SetupViews | StakingStart | ChainStart _ _
  | ChainIntersectionFound | PollingStart _ => true
  | _ => false
  end.

(** The script events of the steps, run one after the other with nothing
    in between: up to the step that ends the process, if there is one. *)
Fixpoint script_events (cc : result Config.ChainConfig) (steps : list step) : list event :=
  match steps with
  | [] => []
  | s :: rest =>
      match s with
      | SListen => ListenOn "index" :: script_events cc rest
      | SSetupSchemas => SetupSchemas :: script_events cc rest
      | SSetupIndexers => (IndexerSetup <$> AllIndexerKeys) ++ script_events cc rest
      | SSetupAdminTables => SetupAdminTables :: script_events cc rest
      | SSetupMigrationTables => SetupMigrationTables :: script_events cc rest
      | SSetupViews => SetupViews :: script_events cc rest
      | SChainConfig =>
          match cc with
          | Throw _ => []
          | Ok _ => script_events cc rest
          end
      | SChainStaking => StakingStart :: script_events cc rest
      | SChainStart =>
          match cc with
          | Throw _ => script_events cc rest
          | Ok c =>
              ChainStart (start_begin (Config.CHAIN_INDEX_BEGIN c)) (start_end c)
              :: script_events cc rest
          end
      | SChainStarted => ChainIntersectionFound :: script_events cc rest
      | SPolling name => PollingStart name :: script_events cc rest
      | SExit0 => []
      end
  end.

(** The callbacks that the entry point has collected, read off the trace:
    [run] of a polling indexer starts it and returns its callback at
    once; [run] of the chain indexer returns its callback once the
    intersection is logged. *)
Definition started_of (t : list event) : list shutdown :=
  t ≫= λ e, match e with
            | PollingStart name => [PollingShutdown name]
            | ChainIntersectionFound => [ChainShutdown]
            | _ => []
            end.

(** The callbacks that were called, read off the trace. *)
Definition stopped_of (t : list event) : list shutdown :=
  t ≫= λ e, match e with
            | PollingStop name => [PollingShutdown name]
            | ChainStop _ _ => [ChainShutdown]
            | _ => []
            end.

(** What calling a callback does, given the value of
    [willSaveCheckpoint] at that time. *)
Definition shutdown_events (save : bool) (cb : shutdown) : list event :=
  match cb with
  | ChainShutdown => [ChainStop true save; StakingStop]
  | PollingShutdown name => [PollingStop name]
  end.

(** What the function registered with [prexit] does, in order. *)
Definition handler_events (signal : string) (save : bool)
    (cbs : list shutdown) : list event :=
  [ConsoleWarn "$ TIME"; ConsoleWarn ("$ EXIT: " +:+ signal)] ++
  (reverse cbs ≫= shutdown_events save) ++
  [ConnectionsCleanup] ++
  (if String.eqb signal "uncaughtException" then
     [ConsoleError "!! UNCAUGHT EXCEPTION !!"]
   else if String.eqb signal "unhandledRejection" then
     [ConsoleError "!! UNHANDLED REJECTION !!"]
   else []) ++
  [ConsoleLog "=== GOOD BYE ==="].

(** [process.exitCode] after that function. *)
Definition handler_code (signal : string) (error : option string)
    (code : option Z) : option Z :=
  match code, error with
  | None, Some _ => Some (default 1 (signal_number os_constants_signals signal))
  | _, _ => code
  end.

(** The inputs that end the process whenever they are received. *)
Definition is_reload (o : option input) : bool :=
  match o with
  | Some (Notify payload) => String.eqb payload "reload"
  | _ => false
  end.

Definition is_log (e : event) : bool :=
  match e with
  | ConsoleLog _ | ConsoleWarn _ | ConsoleError _ => true
  | _ => false
  end.

Definition is_cleanup (e : event) : bool :=
  match e with
  | ConnectionsCleanup => true
  | _ => false
  end.

(** A move of the process after which it still runs: the flag and the
    exit code are untouched, no callback is called, nothing is released,
    the callbacks of the indexers started by the move are collected, and
    the script has advanced by the events of the move. *)
Definition quiet_move (cc : result Config.ChainConfig) (m m' : machine) : Prop :=
  exited m' = None ∧
  willSaveCheckpoint m' = willSaveCheckpoint m ∧
  exitCode m' = exitCode m ∧
  ∃ es,
    trace m' = trace m ++ es ∧
    stopped_of es = [] ∧
    filter is_cleanup es = [] ∧
    shutdowns m' = shutdowns m ++ started_of es ∧
    filter is_script_event es ++ script_events cc (script m') =
      script_events cc (script m).

(** A move that ends the process: after some lines logged, the function
    registered with [prexit] runs over the callbacks collected so far,
    with [save] for [willSaveCheckpoint], and the process exits.  The
    script, if it is what ends the process, has no further event. *)
Definition final_move (cc : result Config.ChainConfig) (save : bool)
    (by_script : bool) (m m' : machine) : Prop :=
  ∃ es signal code,
    trace m' = trace m ++ es ++
               handler_events signal save (shutdowns m) ++ [ProcessExit code] ∧
    exited m' = Some code ∧
    Forall is_log es ∧
    (by_script = true → script_events cc (script m) = []).

(** What holds of the process while it runs. *)
Definition running_inv (m : machine) : Prop :=
  willSaveCheckpoint m = true ∧
  exitCode m = None ∧
  stopped_of (trace m) = [] ∧
  filter is_cleanup (trace m) = [] ∧
  started_of (trace m) = shutdowns m.

(** The trace of a process that has exited: what it did while it ran,
    then either a plain exit, or the function registered with [prexit]
    over the callbacks collected and the exit. *)
Definition exited_shape (m : machine) : Prop :=
  ∃ t0 tail,
    trace m = t0 ++ tail ∧
    stopped_of t0 = [] ∧
    filter is_cleanup t0 = [] ∧
    ((started_of t0 = [] ∧ Forall is_log t0 ∧ tail = [ProcessExit 1]) ∨
     ∃ es signal save code,
       Forall is_log es ∧
       tail = es ++ handler_events signal save (started_of t0) ++ [ProcessExit code]).

(** The script events of a run, when nothing interrupts the script. *)
Definition total_events (cc : result Config.ChainConfig) (ENV : Env)
    (argv : list string) : list event :=
  match select ENV argv with
  | Selected _ willSetup indexers =>
      script_events cc (main_script willSetup indexers)
  | _ => []
  end.

(** The script events happen in the order of the script. *)
Definition in_order (cc : result Config.ChainConfig) (total : list event)
    (m : machine) : Prop :=
  ∃ rest,
    filter is_script_event (trace m) ++ rest = total ∧
    (exited m = None → rest = script_events cc (script m)).

Definition invariant (cc : result Config.ChainConfig) (total : list event)
    (m : machine) : Prop :=
  (exited m = None → running_inv m) ∧
  (exited m ≠ None → exited_shape m) ∧
  in_order cc total m.

(** The script events of the last part of the script: the runs of the
    selected indexers, or nothing when there is none. *)
Definition run_events (cc : result Config.ChainConfig) (indexers : list string)
    : list event :=
  script_events cc
    (if bool_decide (indexers = []) then [SExit0] else indexers ≫= run_steps).



(** A chain configuration, and a process that has started the chain
    indexer on it and now idles. *)
Definition sample_cc : result Config.ChainConfig :=
  Ok {| Config.CHAIN_INDEX_BEGIN := Config.Origin;
        Config.CHAIN_INDEX_END := None;
        Config.CHAIN_INDEX_END_DELAY := Config.DelayZero;
        Config.CONFIG :=
          {| Config.bootstrap := [];
             Config.hashesTreasury :=
               {| Config.dedicated := []; Config.shared := [];
                  Config.open := [] |} |} |}.

Definition sample_schedule : list (option input) := replicate 5 None.

Definition sample_machine : machine :=
  run sample_cc mainnet ["chain"] sample_schedule.

End IndexSpec.

Module LogoMore.
Import Logo.

(** Every character of [w] is a word character. *)
Fixpoint all_word (w : string) : bool :=
  match w with
  | EmptyString => true
  | String c w' => is_word c && all_word w'
  end.

(** One letter of [A-Z]. *)
Definition capital (l : string) : Prop :=
  ∃ c, l = String c EmptyString ∧ (65 ≤ N_of_ascii c ≤ 90)%N.

(** Every row of the table has one capital letter for its letter. *)
Definition letters_capital (table : gmap string (string * option string)) : Prop :=
  ∀ cid l e, table !! cid = Some (l, e) → capital l.

(** An object store with one object, a content store that names a
    content by a prefix, and a task for the object. *)
Definition sample_getObject (key : string) (if_match : option string)
    : result GetObjectOutput :=
  if String.eqb key "logos/x/a/1.png" then
    Ok {| res_ETag := Some "e9"; Body := Some "png" |}
  else Throw "NoSuchKey".

Definition sample_ipfs_add (body : string) : result string :=
  Ok ("Qm" +:+ body).

Definition sample_task : Task :=
  {| key := "logos/x/a/1.png"; etag := Some "e9" |}.

End LogoMore.

Module ConfigMoreSpec.
Import Config ConfigMore.

(** [c] occurs in [s]. *)
Fixpoint has_char (c : ascii) (s : string) : bool :=
  match s with
  | EmptyString => false
  | String d s' => Ascii.eqb d c || has_char c s'
  end.

(** [rest] does not go on with the number before it: it is empty, or
    starts with a character that is neither a decimal digit nor the [x]
    of a [0x] prefix. *)
Definition stops (rest : string) : Prop :=
  match rest with
  | EmptyString => True
  | String c _ =>
      Js.digit_value 10 c = None ∧ c ≠ "x"%char ∧ c ≠ "X"%char
  end.

Definition sample_cardano_env : gmap string string :=
  <["CEXPLORER_URL" := "https://cexplorer.io"]> {["NETWORK" := "preprod"]}.

End ConfigMoreSpec.

Module IndexMore.
Import Index.

(** The events of the setup phase. *)
Definition is_setup (e : event) : bool :=
  match e with
  | SetupSchemas | IndexerSetup _ | SetupAdminTables
  | SetupMigrationTables | SetupViews => true
  | _ => false
  end.

End IndexMore.

Module ConfigRest.
Import Config.



(** [pick(base, ...keys)]: [Object.fromEntries] of the entries
    [[key, base[key]]], a later entry replacing an earlier one of the
    same key.  [base[key]] is read among the own properties of [base]
    ([K extends keyof T]); [None] stands for [undefined]. *)
Definition pick {V : Type} (base : gmap string V) (keys : list string)
    : gmap string (option V) :=
  foldl (λ (object : gmap string (option V)) key, <[key := base !! key]> object)
        ∅ keys.



Definition sample_base : gmap string Z := <["b" := 2]> {["a" := 1]}.

End ConfigRest.

(** * Properties *)

(** ** The ai.logo indexer *)

Section logo_facts.
Import Logo LogoSpec.

Lemma initialize_union (rows : list LogoRow) (fetched : gset string) :
  initialize rows fetched = fetched ∪ list_to_set (select_etags rows).
Proof.
  unfold initialize. generalize (select_etags rows) as es.
  intros es. revert fetched.
  induction es as [|e es IH]; intros fetched; simpl.
  - symmetry. apply (right_id_L ∅ (∪)).
  - rewrite IH. rewrite (comm_L (∪) {[e]} fetched).
    symmetry. apply (assoc_L (∪)).
Qed.

Lemma elem_of_select_etags (rows : list LogoRow) (e : string) :
  e ∈ select_etags rows ↔ ∃ r, r ∈ rows ∧ row_etag r = Some e.
Proof. unfold select_etags. apply list_elem_of_omap. Qed.

Lemma scan_contents_ok fetched contents st st' :
  scan_contents fetched contents st = Ok st' →
  tasks st' = tasks st ++ (task_of <$> List.filter (emitted fetched) contents) ∧
  skipped st' =
    (skipped st + length (List.filter (λ o, negb (emitted fetched o)) contents))%nat.
Proof.
  revert st. induction contents as [|obj rest IH]; intros st; simpl.
  - intros [= <-]. rewrite app_nil_r. split; [done | lia].
  - destruct (Js.truthy (Key obj)); simpl; [|discriminate].
    change (is_new fetched (ETag obj)) with (emitted fetched obj).
    destruct (emitted fetched obj); simpl;
      intros H; apply IH in H as [-> ->]; simpl.
    + rewrite <- app_assoc. done.
    + split; [done | lia].
Qed.

Lemma fetch_pages_ok fetched pages st st' :
  fetch_pages fetched pages st = Ok st' →
  tasks st' = tasks st ++ (task_of <$> List.filter (emitted fetched) (pages ≫= default [])) ∧
  skipped st' =
    (skipped st +
     length (List.filter (λ o, negb (emitted fetched o)) (pages ≫= default [])))%nat.
Proof.
  revert st. induction pages as [|page rest IH]; intros st; simpl.
  - intros [= <-]. rewrite app_nil_r. split; [done | lia].
  - unfold fetchSinglePage.
    destruct page as [contents|]; simpl; [|discriminate].
    destruct (scan_contents fetched contents st) as [st1|] eqn:E; simpl;
      [|discriminate].
    intros H. apply IH in H as [-> ->].
    apply scan_contents_ok in E as [-> ->].
    rewrite !List.filter_app, fmap_app, length_app, <- app_assoc.
    split; [done | symmetry; apply Nat.add_assoc].
Qed.

Lemma scan_contents_total fetched contents st :
  Forall (λ obj, Js.truthy (Key obj) = true) contents →
  ∃ st', scan_contents fetched contents st = Ok st'.
Proof.
  revert st. induction contents as [|obj rest IH]; intros st Hk; simpl.
  - eauto.
  - apply Forall_cons in Hk as [-> Hk]. simpl.
    destruct (is_new fetched (ETag obj)); apply IH; done.
Qed.

Lemma fetch_pages_total fetched pages st :
  Forall (λ page : option (list S3Object), is_Some page) pages →
  Forall (λ obj, Js.truthy (Key obj) = true) (pages ≫= default []) →
  ∃ st', fetch_pages fetched pages st = Ok st'.
Proof.
  revert st. induction pages as [|page rest IH]; intros st Hp Hk; simpl.
  - eauto.
  - apply Forall_cons in Hp as [[contents ->] Hp].
    simpl in Hk. apply Forall_app in Hk as [Hk1 Hk2].
    unfold fetchSinglePage. simpl.
    destruct (scan_contents_total fetched contents st Hk1) as [st1 ->].
    simpl. apply IH; done.
Qed.
End logo_facts.

Section logo_claims.
Import Logo LogoSpec.

Lemma fetchTasksFromS3_total (s3 : Listing) (fetched : gset string) :
  well_formed s3 → ∃ r, fetchTasksFromS3 s3 fetched = Ok r.
Proof. intros [Hp Hk]. by apply fetch_pages_total. Qed.

Lemma emitted_false (fetched : gset string) (obj : S3Object) :
  emitted fetched obj = false ↔ ∃ e, ETag obj = Some e ∧ e ∈ fetched.
Proof.
  unfold emitted, is_new. destruct (ETag obj) as [e|]; split.
  - intros H. exists e. split; [done|].
    apply negb_false_iff, bool_decide_eq_true in H. done.
  - intros (e' & [= <-] & He). apply negb_false_iff, bool_decide_eq_true. done.
  - discriminate.
  - intros (e' & [=] & _).
Qed.

(** C6.  [initialize] adds to the fetched set exactly the etags that are
    not null in the rows of [ai.logo]; and a fetch that returns, with
    whatever the fetched set then holds, emits a task for each listed
    object that has no ETag or whose ETag is not in the set, in the
    order of the listing, and counts every other listed object, that
    is, each one whose ETag is in the set, as skipped. *)
Theorem ai_logo_fetch_skips_fetched
    (rows : list LogoRow) (fetched0 fetched : gset string)
    (s3 : Listing) (r : FetchState) :
  fetchTasksFromS3 s3 fetched = Ok r →
  (∀ e, e ∈ initialize rows fetched0 ↔
        e ∈ fetched0 ∨ ∃ row, row ∈ rows ∧ row_etag row = Some e) ∧
  tasks r = task_of <$> List.filter (emitted fetched) (listed s3) ∧
  skipped r = length (List.filter (λ o, negb (emitted fetched o)) (listed s3)) ∧
  (∀ o, o ∈ listed s3 →
        (task_of o ∈ tasks r ∨ emitted fetched o = false) ∧
        (emitted fetched o = false ↔ ∃ e, ETag o = Some e ∧ e ∈ fetched) ∧
        (emitted fetched o = true ↔ ETag o = None ∨ ∃ e, ETag o = Some e ∧ e ∉ fetched)).
Proof.
  intros H. split; [|split; [|split]].
  - intros e. rewrite initialize_union, elem_of_union, elem_of_list_to_set.
    rewrite elem_of_select_etags. done.
  - apply fetch_pages_ok in H as [-> _]. done.
  - apply fetch_pages_ok in H as [_ ->]. done.
  - intros o Ho. apply fetch_pages_ok in H as [Ht _]. simpl in Ht.
    split; [|split].
    + destruct (emitted fetched o) eqn:E; [left | by right].
      rewrite Ht. apply list_elem_of_fmap. exists o. split; [done|].
      apply list_elem_of_In, List.filter_In. split; [|done].
      by apply list_elem_of_In.
    + apply emitted_false.
    + unfold emitted, is_new. destruct (ETag o) as [e|].
      * rewrite negb_true_iff, bool_decide_eq_false. split.
        -- intros He. right. eauto.
        -- intros [[=]|(e' & [= <-] & He)]. done.
      * split; [by left | done].
Qed.

(** C7.  Running [setup] of ai.logo on the database that a first run
    leaves gives that same database again, with the same outcome, from
    every database; so a second run after a run that succeeded succeeds
    and changes nothing, and after a successful run both objects are
    there. *)
Theorem ai_logo_setup_idempotent (db : gmap string (gmap string Relation)) :
  setup (setup db).1 = setup db ∧
  ((setup db).2 = Ok tt →
   setup (setup db).1 = ((setup db).1, Ok tt) ∧
   ∃ rels columns idx,
     (setup db).1 !! "ai" = Some rels ∧
     rels !! "logo" = Some (Table columns) ∧
     rels !! "logo_letter_index" = Some idx).
Proof.
  assert (Hi : setup (setup db).1 = setup db).
  { unfold setup, create_table_if_not_exists, create_index_if_not_exists.
    repeat (first [ progress simplify_map_eq | case_match | case_bool_decide ]);
      done. }
  split; [done|]. intros Hok. split.
  { rewrite Hi. destruct (setup db) as [db' res]. simpl in *. by subst. }
  revert Hok.
  unfold setup, create_table_if_not_exists, create_index_if_not_exists.
  repeat (first [ progress simplify_map_eq | case_match | case_bool_decide ]);
    try done; intros _; eexists _, _, _;
    (split; [first [reflexivity | apply lookup_insert_eq | eassumption]|]);
    split; simplify_map_eq; done.
Qed.
End logo_claims.

(** ** The chain configuration *)

Section config_facts.
Import Config ConfigSpec.

Local Arguments String.eqb : simpl never.
Local Arguments Js.split_limit : simpl never.
Local Arguments Js.parseInt : simpl never.



Lemma parseChainIndexBegin_keyword (raw : option string) :
  (parseChainIndexBegin raw = Ok (Some Origin) ↔ raw = Some "origin") ∧
  (parseChainIndexBegin raw = Ok (Some Tip) ↔ raw = Some "tip").
Proof.
  unfold parseChainIndexBegin, assert.
  destruct raw as [raw|]; simpl; [|by split; split].
  destruct raw as [|c s]; simpl; [by split; split|].
  destruct (String.eqb_spec (String c s) "origin") as [->|Ho];
    [by split; split|].
  destruct (String.eqb_spec (String c s) "tip") as [->|Ht];
    [by split; split|].
  split; (split; [|intros H; congruence]);
    case_match; simpl; discriminate.
Qed.

Section chain_cases.
Variable readConfig : string → result ChainFile.
Variable env : gmap string string.
Variables (path : string) (cfg : ChainFile).
Hypothesis Hpath : requiredEnv env "CHAIN_INDEX_CONFIG" = Ok path.
Hypothesis Hcfg : readConfig path = Ok cfg.




End chain_cases.
End config_facts.

(** ** The arguments of the process *)

Section select_facts.
Import Index IndexSpec.

Lemma indexOf_nonneg (l : list string) (x : string) :
  -1 ≤ indexOf l x ∧ (0 ≤ indexOf l x ↔ x ∈ l).
Proof.
  induction l as [|y l [IH1 IH2]]; simpl.
  - split; [lia|]. split; [lia | by intros ?%elem_of_nil].
  - destruct (String.eqb_spec y x) as [->|Hne].
    + split; [lia|]. split; [intros _; left | lia].
    + destruct (Z.ltb_spec (indexOf l x) 0) as [Hlt|Hge].
      * split; [lia|]. split; [lia|].
        intros [?|Hin]%elem_of_cons; [congruence|]. apply IH2 in Hin. lia.
      * split; [lia|]. split; [intros _; right; apply IH2; lia | lia].
Qed.

Lemma indexOf_inj (l : list string) (x y : string) :
  x ∈ l → indexOf l x = indexOf l y → x = y.
Proof.
  induction l as [|z l IH]; simpl; [by intros ?%elem_of_nil|].
  intros Hx.
  destruct (String.eqb_spec z x) as [Hzx|Hzx];
    destruct (String.eqb_spec z y) as [Hzy|Hzy]; [congruence| | |].
  - destruct (Z.ltb_spec (indexOf l y) 0); pose proof (indexOf_nonneg l y); lia.
  - destruct (Z.ltb_spec (indexOf l x) 0); pose proof (indexOf_nonneg l x); lia.
  - apply elem_of_cons in Hx as [?|Hx]; [congruence|].
    pose proof (proj2 (indexOf_nonneg l x)) as Hnx. apply Hnx in Hx as Hx'.
    destruct (Z.ltb_spec (indexOf l x) 0); [lia|].
    destruct (Z.ltb_spec (indexOf l y) 0); [lia|].
    intros ?. apply IH; [done | lia].
Qed.

Local Arguments indexOf : simpl never.
Local Arguments AllIndexerKeys : simpl never.

Lemma includes_spec (l : list string) (x : string) :
  includes l x = true ↔ x ∈ l.
Proof. unfold includes. apply bool_decide_eq_true. Qed.

Lemma includes_false (l : list string) (x : string) :
  includes l x = false ↔ x ∉ l.
Proof. unfold includes. apply bool_decide_eq_false. Qed.

(** Facts about the registry, by computation. *)
Lemma AllIndexerKeys_NoDup : NoDup AllIndexerKeys.
Proof. apply (bool_decide_unpack _). vm_compute. exact I. Qed.

Lemma AllIndexerKeys_sorted : StronglySorted before AllIndexerKeys.
Proof. apply (bool_decide_unpack _). vm_compute. exact I. Qed.

Lemma AllIndexerKeys_no_dot :
  Forall (λ k, Js.endsWith k "." = false) AllIndexerKeys.
Proof. apply (bool_decide_unpack _). vm_compute. exact I. Qed.

Lemma AllIndexerKeys_no_directive :
  Forall (λ k, is_directive k = false) AllIndexerKeys.
Proof. apply (bool_decide_unpack _). vm_compute. exact I. Qed.

Lemma chain_is_first : indexOf AllIndexerKeys "chain" = 0.
Proof. reflexivity. Qed.

(** *** The pushes under [all] *)

Lemma pushAll_foldl (ENV : Env) (ks warnings args : list string) :
  foldl (λ (acc : list string * list string) name,
           let '(warnings, args) := acc in
           if String.eqb name "chain" && negb true then (warnings, args)
           else if includes (disabled ENV) name then
             (warnings ++ ["[" +:+ name +:+ "] is disabled by default on {"
                           +:+ Env_name ENV +:+ "}"], args)
           else (warnings, args ++ [name]))
        (warnings, args) ks =
  (warnings ++ (disabled_warning ENV <$> filter (λ k, includes (disabled ENV) k) ks),
   args ++ filter (λ k, ¬ includes (disabled ENV) k) ks).
Proof.
  revert warnings args. induction ks as [|k ks IH]; intros warnings args.
  - simpl. by rewrite !app_nil_r.
  - cbn [foldl]. rewrite andb_false_r.
    rewrite !filter_cons.
    destruct (includes (disabled ENV) k) eqn:E; rewrite IH.
    + rewrite decide_True by done. rewrite decide_False by (by intros []).
      rewrite fmap_cons, <- app_assoc. done.
    + rewrite decide_False by (by intros []).
      rewrite decide_True by (by intros []).
      rewrite <- app_assoc. done.
Qed.

Lemma disabled_filter (ENV : Env) :
  filter (λ k, includes (disabled ENV) k) AllIndexerKeys = disabled ENV.
Proof. destruct ENV; vm_compute; reflexivity. Qed.

Lemma pushAll_all (ENV : Env) (args : list string) :
  pushAll ENV true args =
  (disabled_warning ENV <$> disabled ENV,
   args ++ filter (λ k, ¬ includes (disabled ENV) k) AllIndexerKeys).
Proof.
  unfold pushAll. rewrite pushAll_foldl. by rewrite disabled_filter.
Qed.

(** *** The expansion of prefixes *)

Lemma expandArg_spec (arg : string) :
  expandArg arg =
  if expandable arg then Ok (expansion arg)
  else Throw ("No indexer with prefix: " +:+ arg).
Proof.
  unfold expandArg, expandable, expansion.
  destruct (Js.endsWith arg "."); simpl; [|done].
  case_bool_decide; done.
Qed.

Lemma expandArgs_ok (args : list string) :
  forallb expandable args = true →
  expandArgs args = Ok (args ≫= expansion).
Proof.
  induction args as [|arg args IH]; simpl; [done|].
  intros [Ha Hr]%andb_true_iff. rewrite expandArg_spec, Ha. simpl.
  rewrite IH by done. done.
Qed.

Lemma expandArgs_throw (args : list string) :
  forallb expandable args = false → ∃ msg, expandArgs args = Throw msg.
Proof.
  induction args as [|arg args IH]; simpl; [done|].
  rewrite expandArg_spec. destruct (expandable arg); simpl; [|eauto].
  intros Hr. destruct (IH Hr) as [msg ->]. simpl. eauto.
Qed.

(** *** Removing duplicates *)

Lemma elem_of_uniq (seen l : list string) (x : string) :
  x ∈ uniq seen l ↔ x ∈ l ∧ x ∉ seen.
Proof.
  revert seen. induction l as [|y l IH]; intros seen; simpl.
  - split; [by intros ?%elem_of_nil | by intros [?%elem_of_nil _]].
  - destruct (includes seen y) eqn:E.
    + apply includes_spec in E. rewrite IH, elem_of_cons.
      split; [tauto|]. intros [[->|?] ?]; [done | tauto].
    + apply includes_false in E. rewrite elem_of_cons, IH, !elem_of_cons.
      destruct (decide (x = y)) as [->|Hne]; tauto.
Qed.

Lemma NoDup_uniq (seen l : list string) : NoDup (uniq seen l).
Proof.
  revert seen. induction l as [|y l IH]; intros seen; simpl.
  - constructor.
  - destruct (includes seen y); [apply IH|].
    constructor; [|apply IH]. rewrite elem_of_uniq.
    intros [_ Hn]. apply Hn. by left.
Qed.

(** *** Sorting *)

Lemma insert_sorted_perm (x : Z * string) (l : list (Z * string)) :
  insert_sorted x l ≡ₚ x :: l.
Proof.
  induction l as [|y l IH]; simpl; [done|].
  destruct (x.1 <=? y.1); [done|]. rewrite IH. apply Permutation_swap.
Qed.

Lemma sort_by_index_perm (l : list (Z * string)) : sort_by_index l ≡ₚ l.
Proof.
  induction l as [|x l IH]; simpl; [done|].
  unfold sort_by_index in *. simpl. rewrite insert_sorted_perm. by rewrite IH.
Qed.

Lemma insert_sorted_sorted (x : Z * string) (l : list (Z * string)) :
  StronglySorted by_index l → StronglySorted by_index (insert_sorted x l).
Proof.
  induction l as [|y l IH]; simpl; intros Hs.
  - repeat constructor.
  - apply StronglySorted_inv in Hs as [Hs Hy].
    destruct (Z.leb_spec x.1 y.1) as [Hle|Hgt].
    + constructor; [by constructor|].
      constructor; [done|].
      eapply Forall_impl; [exact Hy|]. unfold by_index. intros z ?; lia.
    + constructor; [by apply IH|].
      rewrite insert_sorted_perm. constructor; [|done].
      unfold by_index. lia.
Qed.

Lemma sort_by_index_sorted (l : list (Z * string)) :
  StronglySorted by_index (sort_by_index l).
Proof.
  induction l as [|x l IH]; simpl; [constructor|].
  by apply insert_sorted_sorted.
Qed.

(** *** The loop over the sorted names *)

Lemma collect_ok (l : list (Z * string)) (willSetup : bool) (indexers : list string) :
  Forall (λ p, is_directive p.2 = true ∨ 0 ≤ p.1) l →
  collect l willSetup indexers =
  Ok (willSetup || existsb (λ p, is_directive p.2) l,
      indexers ++ filter (λ n, ¬ is_directive n) (l.*2)).
Proof.
  revert willSetup indexers.
  induction l as [|[i n] l IH]; intros willSetup indexers Hl; simpl.
  - by rewrite orb_false_r, app_nil_r.
  - apply Forall_cons in Hl as [Hp Hl]. simpl in Hp.
    rewrite filter_cons. fold (is_directive n).
    destruct (is_directive n) eqn:E; simpl.
    + rewrite IH by done. by rewrite orb_true_r.
    + destruct Hp as [?|Hi]; [done|].
      destruct (Z.ltb_spec i 0); [lia|].
      rewrite IH by done. by rewrite <- app_assoc.
Qed.

Lemma collect_throw (l : list (Z * string)) (willSetup : bool) (indexers : list string) :
  Exists (λ p, is_directive p.2 = false ∧ p.1 < 0) l →
  ∃ name, collect l willSetup indexers = Throw ("Unexpected indexer: " +:+ name) ∧
          name ∈ l.*2 ∧ is_directive name = false.
Proof.
  revert willSetup indexers.
  induction l as [|[i n] l IH]; intros willSetup indexers Hl; simpl.
  - by apply Exists_nil in Hl.
  - fold (is_directive n).
    destruct (is_directive n) eqn:E; simpl.
    + apply Exists_cons in Hl as [[Hd _]|Hl]; [simpl in Hd; congruence|].
      destruct (IH true indexers Hl) as (name & -> & Hin & Hd).
      exists name. split; [done|]. split; [by right | done].
    + destruct (Z.ltb_spec i 0).
      * exists n. split; [done|]. split; [by left | done].
      * apply Exists_cons in Hl as [[_ Hi]|Hl]; [simpl in Hi; lia|].
        destruct (IH willSetup (indexers ++ [n]) Hl) as (name & -> & Hin & Hd).
        exists name. split; [done|]. split; [by right | done].
Qed.

(** *** Sorted lists of names *)

Lemma StronglySorted_filter_names (R : relation string) (P : string → Prop)
    `{∀ x, Decision (P x)} (l : list string) :
  StronglySorted R l → StronglySorted R (filter P l).
Proof.
  induction 1 as [|x l Hs IH Hx]; [constructor|].
  rewrite filter_cons. destruct (decide (P x)); [|done].
  constructor; [done|].
  apply Forall_forall. intros y [_ Hy]%list_elem_of_filter.
  by eapply Forall_forall in Hx.
Qed.

Lemma sorted_names (l : list (Z * string)) :
  StronglySorted by_index l →
  Forall (λ p, p.1 = indexOf AllIndexerKeys p.2) l →
  StronglySorted (λ a b, indexOf AllIndexerKeys a ≤ indexOf AllIndexerKeys b) (l.*2).
Proof.
  induction 1 as [|p l Hs IH Hp]; intros Hl; [constructor|].
  apply Forall_cons in Hl as [Hp1 Hl]. rewrite fmap_cons.
  constructor; [by apply IH|].
  apply Forall_fmap, Forall_forall. intros q Hq.
  rewrite Forall_forall in Hp. specialize (Hp q Hq).
  rewrite Forall_forall in Hl. specialize (Hl q Hq).
  unfold by_index in Hp. cbv beta in Hl, Hp1.
  change (indexOf AllIndexerKeys p.2 ≤ indexOf AllIndexerKeys q.2).
  rewrite <- Hl, <- Hp1. done.
Qed.

Lemma sorted_strict (l : list string) :
  StronglySorted (λ a b, indexOf AllIndexerKeys a ≤ indexOf AllIndexerKeys b) l →
  NoDup l → Forall (λ x, x ∈ AllIndexerKeys) l →
  StronglySorted before l.
Proof.
  induction 1 as [|x l Hs IH Hx]; intros Hnd Hin; [constructor|].
  apply NoDup_cons in Hnd as [Hxl Hnd].
  apply Forall_cons in Hin as [Hxk Hin].
  constructor; [by apply IH|].
  apply Forall_forall. intros y Hy.
  eapply Forall_forall in Hx; [|exact Hy].
  unfold before.
  destruct (decide (indexOf AllIndexerKeys x = indexOf AllIndexerKeys y)) as [E|];
    [|lia].
  apply indexOf_inj in E; [|done]. congruence.
Qed.

Lemma before_antisymm : AntiSymm (=) before.
Proof. intros a b. unfold before. lia. Qed.

Lemma sorted_same_elements (l1 l2 : list string) :
  StronglySorted before l1 → StronglySorted before l2 →
  NoDup l1 → NoDup l2 → (∀ x, x ∈ l1 ↔ x ∈ l2) → l1 = l2.
Proof.
  intros Hs1 Hs2 Hn1 Hn2 Hel.
  apply (@StronglySorted_unique _ before before_antisymm); [done..|].
  by apply NoDup_Permutation.
Qed.

(** *** The selection as a whole *)

Lemma select_unfold (ENV : Env) (argv : list string) :
  argv ≠ [] →
  select ENV argv =
  match expandArgs (prepared ENV argv) with
  | Throw msg => Fatal (warnings_of ENV argv) msg
  | Ok expandedArgs =>
      match collect (sorted expandedArgs) false [] with
      | Throw msg => Fatal (warnings_of ENV argv) msg
      | Ok (willSetup, indexers) =>
          Selected (warnings_of ENV argv) willSetup indexers
      end
  end.
Proof.
  intros Hne. unfold select, prepared, warnings_of.
  rewrite bool_decide_eq_false_2 by done.
  destruct (includes argv "all"); [|done].
  rewrite pushAll_all. done.
Qed.

Lemma elem_of_expansion (arg x : string) :
  x ∈ expansion arg ↔
  if Js.endsWith arg "." then x ∈ AllIndexerKeys ∧ Js.startsWith x arg = true
  else x = arg.
Proof.
  unfold expansion. destruct (Js.endsWith arg ".").
  - rewrite list_elem_of_filter. rewrite Is_true_true. tauto.
  - apply list_elem_of_singleton.
Qed.

Lemma key_expansion (k : string) : k ∈ AllIndexerKeys → expansion k = [k].
Proof.
  intros Hk. unfold expansion.
  pose proof AllIndexerKeys_no_dot as Hd.
  eapply Forall_forall in Hd; [|exact Hk]. by rewrite Hd.
Qed.

Lemma key_not_directive (k : string) :
  k ∈ AllIndexerKeys → is_directive k = false.
Proof.
  intros Hk. pose proof AllIndexerKeys_no_directive as Hd.
  by eapply Forall_forall in Hd.
Qed.

Lemma directive_expansion (x : string) :
  is_directive x = true → Js.endsWith x "." = false ∧ expansion x = [x].
Proof.
  unfold is_directive. intros [E|E]%orb_true_iff;
    apply String.eqb_eq in E; subst; by vm_compute.
Qed.

Lemma elem_of_prepared (ENV : Env) (argv : list string) (arg : string) :
  arg ∈ prepared ENV argv ↔
  arg ∈ argv ∨
  (includes argv "all" = true ∧ arg ∈ AllIndexerKeys ∧
   includes (disabled ENV) arg = false).
Proof.
  unfold prepared. destruct (includes argv "all").
  - rewrite elem_of_app, list_elem_of_filter.
    rewrite <- Is_true_false. tauto.
  - split; [by left | by intros [?|[? _]]].
Qed.

Lemma named_by_spec (argv : list string) (x : string) :
  named_by argv x = true ↔ ∃ arg, arg ∈ argv ∧ x ∈ expansion arg.
Proof.
  unfold named_by. rewrite existsb_exists.
  split; intros (arg & Ha & Hx); exists arg.
  - apply list_elem_of_In in Ha. by apply includes_spec in Hx.
  - apply list_elem_of_In in Ha. by apply includes_spec in Hx.
Qed.

Lemma elem_of_expanded (ENV : Env) (argv : list string) (x : string) :
  x ∈ prepared ENV argv ≫= expansion ↔
  named_by argv x = true ∨
  (includes argv "all" = true ∧ x ∈ AllIndexerKeys ∧
   includes (disabled ENV) x = false).
Proof.
  rewrite list_elem_of_bind, named_by_spec. split.
  - intros (arg & Hx & Ha). apply elem_of_prepared in Ha as [Ha|(Hall & Hk & Hd)].
    + left. eauto.
    + right. rewrite key_expansion in Hx by done.
      apply list_elem_of_singleton in Hx as ->. done.
  - intros [(arg & Ha & Hx)|(Hall & Hk & Hd)].
    + exists arg. split; [done|]. apply elem_of_prepared. by left.
    + exists x. rewrite key_expansion by done.
      split; [by apply list_elem_of_singleton|].
      apply elem_of_prepared. by right.
Qed.

Lemma wanted_spec (ENV : Env) (argv : list string) (x : string) :
  x ∈ AllIndexerKeys →
  (x ∈ prepared ENV argv ≫= expansion ↔ wanted ENV argv x = true).
Proof.
  intros Hk. rewrite elem_of_expanded. unfold wanted.
  rewrite orb_true_iff, andb_true_iff, negb_true_iff. tauto.
Qed.

Lemma valid_expandable (arg : string) :
  valid_arg arg = true → expandable arg = true.
Proof.
  unfold valid_arg, expandable. destruct (Js.endsWith arg "."); [|done].
  simpl. done.
Qed.

Lemma prepared_expandable (ENV : Env) (argv : list string) :
  forallb valid_arg argv = true →
  forallb expandable (prepared ENV argv) = true.
Proof.
  intros Hv. apply forallb_forall. intros arg Ha%list_elem_of_In.
  apply elem_of_prepared in Ha as [Ha|(_ & Hk & _)].
  - apply valid_expandable. rewrite forallb_forall in Hv.
    apply Hv. by apply list_elem_of_In.
  - unfold expandable. pose proof AllIndexerKeys_no_dot as Hd.
    eapply Forall_forall in Hd; [|exact Hk]. by rewrite Hd.
Qed.

Lemma expanded_known (ENV : Env) (argv : list string) (x : string) :
  forallb valid_arg argv = true →
  x ∈ prepared ENV argv ≫= expansion →
  is_directive x = true ∨ x ∈ AllIndexerKeys.
Proof.
  intros Hv [Hn|(_ & Hk & _)]%elem_of_expanded; [|by right].
  apply named_by_spec in Hn as (arg & Ha & Hx).
  rewrite forallb_forall in Hv.
  apply list_elem_of_In, Hv in Ha. unfold valid_arg in Ha.
  apply elem_of_expansion in Hx.
  destruct (Js.endsWith arg "."); [by right; apply Hx|].
  subst x. apply orb_true_iff in Ha as [?|Hin]; [by left|].
  right. by apply includes_spec.
Qed.

Lemma expanded_directive (ENV : Env) (argv : list string) (x : string) :
  is_directive x = true →
  (x ∈ prepared ENV argv ≫= expansion ↔ x ∈ argv).
Proof.
  intros Hd. destruct (directive_expansion x Hd) as [Hdot Hex].
  rewrite elem_of_expanded, named_by_spec. split.
  - intros [(arg & Ha & Hx)|(_ & Hk & _)].
    + apply elem_of_expansion in Hx.
      destruct (Js.endsWith arg ".") eqn:E; [|by subst].
      destruct Hx as [Hk _]. apply key_not_directive in Hk. congruence.
    + apply key_not_directive in Hk. congruence.
  - intros Hx. left. exists x. rewrite Hex.
    split; [done | by apply list_elem_of_singleton].
Qed.

Lemma forallb_false {A} (f : A → bool) (l : list A) :
  forallb f l = false → ∃ x, x ∈ l ∧ f x = false.
Proof.
  induction l as [|x l IH]; simpl; [done|].
  destruct (f x) eqn:E; simpl.
  - intros (y & Hy & Hf)%IH. exists y. split; [by right | done].
  - intros _. exists x. split; [by left | done].
Qed.

Lemma elem_of_sorted (expandedArgs : list string) (p : Z * string) :
  p ∈ sorted expandedArgs ↔ ∃ x, x ∈ expandedArgs ∧ p = tag x.
Proof.
  unfold sorted. rewrite sort_by_index_perm, list_elem_of_fmap.
  split; intros (x & Hx1 & Hx2).
  - apply elem_of_uniq in Hx2 as [Hx2 _]. eauto.
  - exists x. split; [done|]. apply elem_of_uniq. split; [done|].
    by intros ?%elem_of_nil.
Qed.

Lemma sorted_snd (expandedArgs : list string) :
  (sorted expandedArgs).*2 ≡ₚ uniq [] expandedArgs.
Proof.
  unfold sorted. rewrite sort_by_index_perm.
  generalize (uniq [] expandedArgs) as l.
  induction l as [|x l IH]; [done|].
  rewrite !fmap_cons. by f_equiv.
Qed.

Lemma sorted_tagged (expandedArgs : list string) :
  Forall (λ p, p.1 = indexOf AllIndexerKeys p.2) (sorted expandedArgs).
Proof.
  apply Forall_forall. intros p (x & _ & ->)%elem_of_sorted. done.
Qed.

Lemma selected_sorted (ENV : Env) (argv : list string) :
  StronglySorted before (selected ENV argv) ∧ NoDup (selected ENV argv).
Proof.
  split.
  - apply StronglySorted_filter_names, AllIndexerKeys_sorted.
  - apply NoDup_filter, AllIndexerKeys_NoDup.
Qed.

(** The arguments are all accepted: the process selects the names that
    are wanted, in the order of the registry, and the setup phase when
    [all] or [setup] is an argument. *)
Lemma select_ok (ENV : Env) (argv : list string) :
  argv ≠ [] → forallb valid_arg argv = true →
  select ENV argv =
  Selected (warnings_of ENV argv)
           (includes argv "all" || includes argv "setup")
           (selected ENV argv).
Proof.
  intros Hne Hv. rewrite select_unfold by done.
  rewrite expandArgs_ok by by apply prepared_expandable.
  set (E := prepared ENV argv ≫= expansion).
  assert (Hknown : ∀ x, x ∈ E → is_directive x = true ∨ x ∈ AllIndexerKeys)
    by (intros x; by apply expanded_known).
  rewrite collect_ok.
  2:{ apply Forall_forall. intros p (x & Hx & ->)%elem_of_sorted. simpl.
      destruct (Hknown x Hx) as [?|Hk]; [by left|].
      right. by apply indexOf_nonneg. }
  simpl. f_equal.
  - apply eq_true_iff_eq. rewrite existsb_exists, orb_true_iff, !includes_spec.
    split.
    + intros (p & Hp & Hd). apply list_elem_of_In, elem_of_sorted in Hp
        as (x & Hx & ->). simpl in Hd.
      apply expanded_directive in Hx; [|done].
      unfold is_directive in Hd.
      apply orb_true_iff in Hd as [Hd|Hd]; apply String.eqb_eq in Hd;
        subst; tauto.
    + intros [Hx|Hx].
      * exists (tag "all"). split; [|done].
        apply list_elem_of_In, elem_of_sorted. exists "all".
        split; [|done]. by apply expanded_directive.
      * exists (tag "setup"). split; [|done].
        apply list_elem_of_In, elem_of_sorted. exists "setup".
        split; [|done]. by apply expanded_directive.
  - destruct (selected_sorted ENV argv) as [Hs Hn].
    assert (Hin : ∀ x, x ∈ filter (λ n, ¬ is_directive n) (sorted E).*2 ↔
                       x ∈ selected ENV argv).
    { intros x. unfold selected. rewrite !list_elem_of_filter.
      rewrite sorted_snd, elem_of_uniq.
      fold E. split.
      - intros (Hd & Hx & _). apply Is_true_false in Hd.
        destruct (Hknown x Hx) as [?|Hk]; [congruence|].
        split; [|done]. by apply Is_true_true, wanted_spec.
      - intros [Hw%Is_true_true Hk]. split; [|split].
        + apply Is_true_false. by apply key_not_directive.
        + by apply wanted_spec.
        + by intros ?%elem_of_nil. }
    apply sorted_same_elements; [|done| |done|done].
    + apply sorted_strict.
      * apply StronglySorted_filter_names, sorted_names.
        -- apply sort_by_index_sorted.
        -- apply sorted_tagged.
      * apply NoDup_filter. rewrite sorted_snd. apply NoDup_uniq.
      * apply Forall_forall. intros x Hx%Hin.
        by apply list_elem_of_filter in Hx as [_ ?].
    + apply NoDup_filter. rewrite sorted_snd. apply NoDup_uniq.
Qed.

(** An argument is not accepted: the script throws while it processes
    the arguments. *)
Lemma select_fatal (ENV : Env) (argv : list string) :
  argv ≠ [] → forallb valid_arg argv = false →
  ∃ msg, select ENV argv = Fatal (warnings_of ENV argv) msg.
Proof.
  intros Hne Hv. rewrite select_unfold by done.
  destruct (forallb expandable (prepared ENV argv)) eqn:Hexp.
  - rewrite expandArgs_ok by done.
    apply forallb_false in Hv as (arg & Ha & Hbad).
    assert (Hp : arg ∈ prepared ENV argv) by (apply elem_of_prepared; by left).
    rewrite forallb_forall in Hexp.
    apply list_elem_of_In, Hexp in Hp as Hae.
    unfold valid_arg in Hbad. unfold expandable in Hae.
    destruct (Js.endsWith arg ".") eqn:Hdot.
    { simpl in Hae. destruct (bool_decide (expansion arg = [])); done. }
    apply orb_false_iff in Hbad as [Hd Hk%includes_false].
    destruct (collect_throw (sorted (prepared ENV argv ≫= expansion)) false [])
      as (name & -> & _); [|eauto].
    apply Exists_exists. exists (tag arg). split; [|split; [done|]].
    + apply elem_of_sorted. exists arg. split; [|done].
      apply list_elem_of_bind. exists arg.
      split; [|by apply list_elem_of_In].
      apply elem_of_expansion. by rewrite Hdot.
    + simpl. pose proof (indexOf_nonneg AllIndexerKeys arg) as [? Hi].
      destruct (decide (0 ≤ indexOf AllIndexerKeys arg)) as [Hge|]; [|lia].
      by apply Hi in Hge.
  - destruct (expandArgs_throw _ Hexp) as [msg ->]. eauto.
Qed.
End select_facts.

(** ** The shutdown path *)

Section shutdown_facts.
Import Index IndexSpec.

Lemma emit_emit (es1 es2 : list event) (m : machine) :
  emit es2 (emit es1 m) = emit (es1 ++ es2) m.
Proof. unfold emit. simpl. by rewrite app_assoc. Qed.

Lemma foldl_call_shutdown (cbs : list shutdown) (m : machine) :
  foldl call_shutdown m cbs =
  emit (cbs ≫= shutdown_events (willSaveCheckpoint m)) m.
Proof.
  revert m. induction cbs as [|cb cbs IH]; intros m.
  - simpl. unfold emit. rewrite app_nil_r. by destruct m.
  - cbn [foldl]. rewrite IH.
    destruct cb; simpl; by rewrite emit_emit.
Qed.

Local Arguments String.eqb : simpl never.
Local Arguments signal_number : simpl never.

Lemma on_prexit_trace (signal : string) (error : option string) (m : machine) :
  trace (on_prexit signal error m) =
  trace m ++ handler_events signal (willSaveCheckpoint m) (shutdowns m).
Proof.
  unfold on_prexit, handler_events. rewrite foldl_call_shutdown.
  destruct (bool_decide _ && bool_decide _);
    destruct (String.eqb signal "uncaughtException");
    destruct (String.eqb signal "unhandledRejection");
    cbn [emit set_exitCode trace willSaveCheckpoint shutdowns];
    rewrite <- ?app_assoc; reflexivity.
Qed.

Lemma on_prexit_exitCode (signal : string) (error : option string) (m : machine) :
  exitCode (on_prexit signal error m) = handler_code signal error (exitCode m).
Proof.
  unfold on_prexit, handler_code. rewrite foldl_call_shutdown.
  cbn [emit exitCode].
  destruct (exitCode m) as [c|] eqn:Hc, error as [e|];
    destruct (String.eqb signal "uncaughtException");
    destruct (String.eqb signal "unhandledRejection");
    cbn; rewrite ?Hc; reflexivity.
Qed.

Lemma on_prexit_frame (signal : string) (error : option string) (m : machine) :
  willSaveCheckpoint (on_prexit signal error m) = willSaveCheckpoint m ∧
  shutdowns (on_prexit signal error m) = shutdowns m ∧
  listening (on_prexit signal error m) = listening m ∧
  script (on_prexit signal error m) = script m ∧
  exited (on_prexit signal error m) = exited m.
Proof.
  unfold on_prexit. rewrite foldl_call_shutdown.
  destruct (bool_decide _ && bool_decide _);
    destruct (String.eqb signal "uncaughtException");
    destruct (String.eqb signal "unhandledRejection");
    cbn; done.
Qed.

Lemma prexit_fire_trace (signal : string) (error : option string) (m : machine) :
  trace (prexit_fire signal error m) =
  trace m ++ handler_events signal (willSaveCheckpoint m) (shutdowns m) ++
  [ProcessExit (default 0 (handler_code signal error (exitCode m)))].
Proof.
  unfold prexit_fire, exit_with. cbn [trace].
  rewrite on_prexit_trace, on_prexit_exitCode. by rewrite <- app_assoc.
Qed.

Lemma prexit_fire_exited (signal : string) (error : option string) (m : machine) :
  exited (prexit_fire signal error m) =
  Some (default 0 (handler_code signal error (exitCode m))).
Proof.
  unfold prexit_fire, exit_with. cbn [exited]. by rewrite on_prexit_exitCode.
Qed.

Lemma prexit_fire_frame (signal : string) (error : option string) (m : machine) :
  willSaveCheckpoint (prexit_fire signal error m) = willSaveCheckpoint m ∧
  shutdowns (prexit_fire signal error m) = shutdowns m ∧
  listening (prexit_fire signal error m) = listening m ∧
  script (prexit_fire signal error m) = script m.
Proof.
  unfold prexit_fire, exit_with.
  cbn [willSaveCheckpoint shutdowns listening script].
  destruct (on_prexit_frame signal error m) as (? & ? & ? & ? & ?). done.
Qed.
End shutdown_facts.

(** ** Reading the trace *)

Section trace_facts.
Import Index IndexSpec.

Local Arguments String.eqb : simpl never.

Lemma started_of_app (a b : list event) :
  started_of (a ++ b) = started_of a ++ started_of b.
Proof. unfold started_of. apply bind_app. Qed.

Lemma stopped_of_app (a b : list event) :
  stopped_of (a ++ b) = stopped_of a ++ stopped_of b.
Proof. unfold stopped_of. apply bind_app. Qed.

Lemma logs_silent (es : list event) :
  Forall is_log es →
  started_of es = [] ∧ stopped_of es = [] ∧
  filter is_cleanup es = [] ∧ filter is_script_event es = [].
Proof.
  induction 1 as [|e es He _ (IH1 & IH2 & IH3 & IH4)]; [done|].
  change (e :: es) with ([e] ++ es).
  rewrite started_of_app, stopped_of_app, !filter_app, IH1, IH2, IH3, IH4.
  destruct e; done.
Qed.

Lemma fmap_logs (f : string → event) (l : list string) :
  (∀ x, is_log (f x)) → Forall is_log (f <$> l).
Proof. intros Hf. apply Forall_fmap, Forall_forall. intros x _. apply Hf. Qed.

Lemma stopped_of_shutdown_events (save : bool) (cbs : list shutdown) :
  stopped_of (cbs ≫= shutdown_events save) = cbs.
Proof.
  induction cbs as [|cb cbs IH]; [done|].
  rewrite bind_cons, stopped_of_app, IH. by destruct cb.
Qed.

Lemma shutdown_events_silent (save : bool) (cbs : list shutdown) :
  started_of (cbs ≫= shutdown_events save) = [] ∧
  filter is_cleanup (cbs ≫= shutdown_events save) = [] ∧
  filter is_script_event (cbs ≫= shutdown_events save) = [].
Proof.
  induction cbs as [|cb cbs (IH1 & IH2 & IH3)]; [done|].
  rewrite bind_cons, started_of_app, !filter_app, IH1, IH2, IH3.
  by destruct cb.
Qed.

Lemma handler_events_facts (signal : string) (save : bool) (cbs : list shutdown) :
  stopped_of (handler_events signal save cbs) = reverse cbs ∧
  started_of (handler_events signal save cbs) = [] ∧
  filter is_script_event (handler_events signal save cbs) = [].
Proof.
  unfold handler_events.
  destruct (shutdown_events_silent save (reverse cbs)) as (H1 & H2 & H3).
  rewrite !stopped_of_app, !started_of_app, !filter_app.
  rewrite stopped_of_shutdown_events, H1, H3.
  destruct (String.eqb signal "uncaughtException");
    destruct (String.eqb signal "unhandledRejection");
    cbn; by rewrite ?app_nil_r.
Qed.

End trace_facts.

(** ** The moves of the process *)

Section move_helpers.
Import Index IndexSpec.
Variable cc : result Config.ChainConfig.

Lemma quiet_emit (m : machine) (es : list event) (rest : list step) :
  exited m = None →
  stopped_of es = [] → filter is_cleanup es = [] → started_of es = [] →
  filter is_script_event es ++ script_events cc rest = script_events cc (script m) →
  quiet_move cc m (emit es (set_script rest m)).
Proof.
  intros He H1 H2 H3 H4. unfold quiet_move. cbn.
  repeat split; try done.
  exists es. rewrite H3, app_nil_r. done.
Qed.

Lemma final_fire (m : machine) (es : list event) (signal : string)
    (error : option string) (save by_script : bool) (m1 : machine) :
  trace m1 = trace m ++ es → shutdowns m1 = shutdowns m →
  willSaveCheckpoint m1 = save →
  Forall is_log es →
  (by_script = true → script_events cc (script m) = []) →
  final_move cc save by_script m (prexit_fire signal error m1).
Proof.
  intros Ht Hs <- H1 H5. unfold final_move.
  exists es, signal, (default 0 (handler_code signal error (exitCode m1))).
  rewrite prexit_fire_trace, prexit_fire_exited, Ht, Hs, <- app_assoc.
  done.
Qed.

End move_helpers.

Section move_facts.
Import Index IndexSpec.
Variable cc : result Config.ChainConfig.

Local Arguments String.eqb : simpl never.
Local Arguments signal_number : simpl never.
Local Arguments handler_events : simpl never.
Local Arguments handler_code : simpl never.
Local Arguments AllIndexerKeys : simpl never.

(** Every move of a running process is quiet or final; a final move
    calls the callbacks with [willSaveCheckpoint] as it was, except after
    [reload], which clears it first. *)
Lemma advance_running (m : machine) (o : option input) :
  exited m = None →
  quiet_move cc m (advance cc m o) ∨
  final_move cc (willSaveCheckpoint m && negb (is_reload o))
             (bool_decide (o = None)) m (advance cc m o).
Proof.
  intros He.
  assert (Hid : quiet_move cc m m).
  { unfold quiet_move. repeat split; try done. exists [].
    by rewrite !app_nil_r. }
  destruct o as [i|]; cbn [advance].
  - unfold receive. rewrite He. destruct i as [payload|name|msg|msg].
    + destruct (listening m); [|by left].
      unfold on_notification. cbn [is_reload].
      destruct (String.eqb payload "reload").
      * right. rewrite andb_false_r. unfold prexit_exit.
        apply (final_fire _ m [ConsoleLog "Received signal: reload"]);
          try done. by repeat constructor.
      * left. unfold quiet_move. cbn. repeat split; try done.
        eexists. split; [done|]. by rewrite app_nil_r.
    + right. cbn [is_reload]. rewrite andb_true_r.
      apply (final_fire _ m []); try done. by rewrite app_nil_r.
    + right. cbn [is_reload]. rewrite andb_true_r.
      apply (final_fire _ m []); try done. by rewrite app_nil_r.
    + right. cbn [is_reload]. rewrite andb_true_r.
      apply (final_fire _ m []); try done. by rewrite app_nil_r.
  - unfold tick. rewrite He.
    destruct (script m) as [|s rest] eqn:Hs; [by left|].
    cbn [is_reload]. rewrite andb_true_r.
    destruct s; cbn [do_step].
    + left. unfold quiet_move. cbn. repeat split; try done.
      eexists. split; [done|]. rewrite Hs. by rewrite app_nil_r.
    + left. apply quiet_emit; try done. by rewrite Hs.
    + left. apply quiet_emit; try done; try (by vm_compute).
      rewrite Hs. by vm_compute.
    + left. apply quiet_emit; try done. by rewrite Hs.
    + left. apply quiet_emit; try done. by rewrite Hs.
    + left. apply quiet_emit; try done. by rewrite Hs.
    + destruct cc as [c|msg] eqn:Hcc.
      * left. unfold quiet_move. cbn. repeat split; try done.
        exists []. rewrite Hs. cbn. rewrite !app_nil_r. done.
      * right. unfold throw_top.
        apply (final_fire _ m []); cbn; try done.
        -- by rewrite app_nil_r.
        -- intros _. rewrite Hs. done.
    + left. apply quiet_emit; try done. by rewrite Hs.
    + destruct cc as [c|msg] eqn:Hcc.
      * left. apply quiet_emit; try done. rewrite Hs. done.
      * left. unfold quiet_move. cbn. repeat split; try done.
        exists []. rewrite Hs. cbn. rewrite !app_nil_r. done.
    + left. unfold quiet_move. cbn. repeat split; try done.
      eexists. split; [done|]. by rewrite Hs.
    + left. unfold quiet_move. cbn. repeat split; try done.
      eexists. split; [done|]. by rewrite Hs.
    + right. unfold prexit_exit0, prexit_exit.
      apply (final_fire _ m [ConsoleWarn "No indexer specified, I'm done!"]);
        cbn; try done.
      * by repeat constructor.
      * intros _. by rewrite Hs.
Qed.
End move_facts.

(** ** What holds along every run *)

Section run_facts.
Import Index IndexSpec.
Variable cc : result Config.ChainConfig.

Local Arguments String.eqb : simpl never.
Local Arguments signal_number : simpl never.
Local Arguments AllIndexerKeys : simpl never.

Lemma exec_snoc (sched : list (option input)) (o : option input) (m : machine) :
  exec cc (sched ++ [o]) m = advance cc (exec cc sched m) o.
Proof. unfold exec. by rewrite foldl_app. Qed.

Lemma advance_exited (m : machine) (o : option input) :
  exited m ≠ None → advance cc m o = m.
Proof.
  intros He. destruct o as [i|]; cbn [advance]; unfold receive, tick;
    by destruct (exited m).
Qed.

(** Induction along the runs of the process. *)
Lemma run_ind (P : machine → Prop) (ENV : Env) (argv : list string) :
  P (boot ENV argv) →
  (∀ m o, P m → exited m = None → P (advance cc m o)) →
  ∀ sched, P (run cc ENV argv sched).
Proof.
  intros H0 Hstep sched. unfold run.
  induction sched as [|o sched IH] using rev_ind; [done|].
  rewrite exec_snoc.
  destruct (exited (exec cc sched (boot ENV argv))) eqn:He.
  - by rewrite advance_exited by congruence.
  - by apply Hstep.
Qed.

Lemma invariant_boot (ENV : Env) (argv : list string) :
  invariant cc (total_events cc ENV argv) (boot ENV argv).
Proof.
  unfold invariant, total_events, boot.
  destruct (select ENV argv) as [lines|warnings msg|warnings willSetup indexers].
  - split; [done|]. split.
    + intros _. exists (ConsoleError <$> lines), [ProcessExit 1].
      destruct (logs_silent (ConsoleError <$> lines)) as (H1 & H2 & H3 & H4);
        [by apply fmap_logs|].
      repeat split; try done. left. repeat split; try done.
      by apply fmap_logs.
    + exists []. split; [|done]. cbn.
      destruct (logs_silent (ConsoleError <$> lines)) as (H1 & H2 & H3 & H4);
        [by apply fmap_logs|].
      rewrite filter_app, H4. done.
  - unfold throw_top.
    destruct (logs_silent (ConsoleWarn <$> warnings)) as (H1 & H2 & H3 & H4);
      [by apply fmap_logs|].
    split; [by rewrite prexit_fire_exited|]. split.
    + intros _. eexists (ConsoleWarn <$> warnings), _.
      rewrite prexit_fire_trace. cbn [emit trace initial app].
      split; [done|]. split; [done|]. split; [done|]. right.
      eexists [], "uncaughtException", true, _. split; [constructor|].
      rewrite H1. done.
    + exists []. split; [|by rewrite prexit_fire_exited].
      rewrite prexit_fire_trace. cbn [emit trace initial app].
      rewrite !filter_app, H4.
      destruct (handler_events_facts "uncaughtException"
                  (willSaveCheckpoint (emit (ConsoleWarn <$> warnings) initial))
                  (shutdowns (emit (ConsoleWarn <$> warnings) initial)))
        as (_ & _ & ->).
      done.
  - destruct (logs_silent ((ConsoleWarn <$> warnings) ++
              ((λ name, ConsoleLog ("% " +:+ name)) <$> indexers)))
      as (H1 & H2 & H3 & H4).
    { apply Forall_app. split; by apply fmap_logs. }
    split; [|split; [done|]].
    + intros _. unfold running_inv, set_script, emit, initial.
      cbn [trace willSaveCheckpoint exitCode shutdowns app].
      by rewrite H1, H2, H3.
    + eexists. unfold set_script, emit, initial.
      cbn [trace script exited app]. rewrite H4. done.
Qed.

Lemma invariant_advance (total : list event) (m : machine) (o : option input) :
  invariant cc total m → exited m = None →
  invariant cc total (advance cc m o).
Proof.
  intros (Hrun & _ & rest & Hrest & Hscript) He.
  specialize (Hrun He) as (Hw & Hc & Hstop & Hclean & Hstart).
  specialize (Hscript He). subst rest.
  destruct (advance_running cc m o He)
    as [(He' & Hw' & Hc' & es & Ht & Hs1 & Hs2 & Hs3 & Hs4)
       |(es & signal & code & Ht & He' & Hlog & _)].
  - split; [|split; [congruence|]].
    + intros _. unfold running_inv.
      rewrite Hw', Hc', Ht, stopped_of_app, started_of_app, filter_app.
      rewrite Hstop, Hclean, Hs1, Hs2, Hstart, Hs3. done.
    + exists (script_events cc (script (advance cc m o))).
      split; [|done]. rewrite Ht, filter_app, <- app_assoc, Hs4. done.
  - destruct (logs_silent es Hlog) as (H1 & H2 & H3 & H4).
    split; [congruence|]. split.
    + intros _. eexists (trace m), _. split; [exact Ht|].
      split; [done|]. split; [done|]. right.
      eexists es, signal, _, code. rewrite Hstart. done.
    + exists (script_events cc (script m)). split; [|congruence].
      rewrite Ht, !filter_app, H4.
      destruct (handler_events_facts signal
                  (willSaveCheckpoint m && negb (is_reload o)) (shutdowns m))
        as (_ & _ & ->).
      cbn. rewrite app_nil_r. done.
Qed.

(** The invariant holds along every run. *)
Lemma run_invariant (ENV : Env) (argv : list string) (sched : list (option input)) :
  invariant cc (total_events cc ENV argv) (run cc ENV argv sched).
Proof.
  apply run_ind; [apply invariant_boot|].
  intros m o Hm He. by apply invariant_advance.
Qed.



(** A script event of a run is a script event of the script. *)
Lemma run_script_event (ENV : Env) (argv : list string)
    (sched : list (option input)) (e : event) :
  e ∈ trace (run cc ENV argv sched) → is_script_event e = true →
  e ∈ total_events cc ENV argv.
Proof.
  intros He Hs.
  destruct (run_invariant ENV argv sched) as (_ & _ & rest & <- & _).
  apply elem_of_app. left. apply list_elem_of_filter. split; [|done].
  by apply Is_true_true.
Qed.


(** What precedes a script event in the trace of a run includes what
    precedes it in the script. *)
Lemma run_prefix (ENV : Env) (argv : list string) (sched : list (option input))
    (pre post before : list event) (e : event) (after : list event) :
  trace (run cc ENV argv sched) = pre ++ e :: post →
  is_script_event e = true →
  total_events cc ENV argv = before ++ after →
  e ∉ before →
  ∃ more, filter is_script_event pre = before ++ more.
Proof.
  intros Ht He Htot Hin.
  destruct (run_invariant ENV argv sched) as (_ & _ & rest & Hrest & _).
  rewrite Ht, filter_app, filter_cons, decide_True in Hrest
    by by apply Is_true_true.
  rewrite Htot, <- app_assoc in Hrest. simpl in Hrest.
  revert Hrest Hin. generalize (filter is_script_event pre) as l.
  generalize (filter is_script_event post ++ rest) as r.
  clear. intros r l. revert l.
  induction before as [|b before IH]; intros l H Hin; [by exists l|].
  destruct l as [|x l]; simpl in H.
  - injection H as -> _. exfalso. apply Hin. by left.
  - injection H as -> H. destruct (IH l H) as [more ->].
    + intros ?. apply Hin. by right.
    + by exists more.
Qed.
End run_facts.

(** ** Termination of the process *)

Section termination_claims.
Import Index IndexSpec.
Variable cc : result Config.ChainConfig.

Local Arguments String.eqb : simpl never.
Local Arguments signal_number : simpl never.
Local Arguments AllIndexerKeys : simpl never.
Local Arguments handler_events : simpl never.












End termination_claims.

(** ** The selection and the script *)

Section script_facts.
Import Index IndexSpec.
Variable cc : result Config.ChainConfig.

Local Arguments String.eqb : simpl never.
Local Arguments signal_number : simpl never.
Local Arguments AllIndexerKeys : simpl never.
Local Arguments handler_events : simpl never.

Lemma select_Selected_inv (ENV : Env) (argv warnings : list string)
    (willSetup : bool) (indexers : list string) :
  select ENV argv = Selected warnings willSetup indexers →
  argv ≠ [] ∧ forallb valid_arg argv = true ∧
  warnings = warnings_of ENV argv ∧
  willSetup = includes argv "all" || includes argv "setup" ∧
  indexers = selected ENV argv.
Proof.
  intros Hsel.
  assert (Hne : argv ≠ []) by (intros ->; discriminate).
  destruct (forallb valid_arg argv) eqn:Hv.
  - rewrite select_ok in Hsel by done. by injection Hsel as <- <- <-.
  - destruct (select_fatal ENV argv Hne Hv) as [msg Hf]. congruence.
Qed.

Lemma total_events_selected (ENV : Env) (argv warnings : list string)
    (willSetup : bool) (indexers : list string) :
  select ENV argv = Selected warnings willSetup indexers →
  total_events cc ENV argv =
  (ListenOn "index" :: (if willSetup then setup_events else [])) ++
  run_events cc indexers.
Proof.
  intros Hsel. unfold total_events, run_events, main_script. rewrite Hsel.
  by destruct willSetup.
Qed.





End script_facts.

(** ** The arguments, the setup phase and the begin position *)

Section selection_claims.
Import Index IndexSpec Config ConfigSpec.
Variable cc : result ChainConfig.

Local Arguments String.eqb : simpl never.
Local Arguments signal_number : simpl never.
Local Arguments AllIndexerKeys : simpl never.
Local Arguments handler_events : simpl never.






Lemma setup_events_no_start :
  Forall (λ e, is_start e = false) (ListenOn "index" :: setup_events).
Proof. apply (bool_decide_unpack _). by vm_compute. Qed.




Lemma selected_chain_first (ENV : Env) (argv : list string) :
  "chain" ∈ selected ENV argv →
  ∃ others, selected ENV argv = "chain" :: others.
Proof.
  unfold selected.
  change AllIndexerKeys with ("chain" :: tail AllIndexerKeys).
  rewrite filter_cons. destruct (decide (wanted ENV argv "chain")); [eauto|].
  intros [_ Hin]%list_elem_of_filter. exfalso. revert Hin.
  apply (bool_decide_unpack _). by vm_compute.
Qed.

End selection_claims.

Section begin_claims.
Import Index IndexSpec Config ConfigSpec.

Local Arguments String.eqb : simpl never.


End begin_claims.

(** ** The statements at sample inputs *)

Section samples.
Import Index IndexSpec Config ConfigSpec Logo LogoSpec.




Lemma ai_logo_fetch_skips_fetched_witness :
  fetchTasksFromS3 sample_listing (initialize sample_rows ∅) = Ok sample_fetch ∧
  tasks sample_fetch =
    task_of <$> List.filter (emitted (initialize sample_rows ∅)) (listed sample_listing) ∧
  skipped sample_fetch =
    length (List.filter (λ o, negb (emitted (initialize sample_rows ∅) o))
              (listed sample_listing)).
Proof.
  split; [vm_compute; reflexivity|].
  pose proof (ai_logo_fetch_skips_fetched sample_rows ∅
                (initialize sample_rows ∅) sample_listing sample_fetch) as H.
  destruct H as (_ & Ht & Hs & _); [vm_compute; reflexivity|].
  exact (conj Ht Hs).
Defined.



End samples.

(** ** Sample evaluations *)

Section examples.
Import Index IndexSpec.

Example parseInt_ex1 : Js.parseInt "  42abc" = Some 42.
Proof. reflexivity. Qed.
Example parseInt_ex2 : Js.parseInt "-0x1F:" = Some (-31).
Proof. reflexivity. Qed.
Example parseInt_ex3 : Js.parseInt "abc" = None.
Proof. reflexivity. Qed.
Example split_ex1 : Js.split_limit ":" 2 "1:ab:cd" = ["1"; "ab"].
Proof. reflexivity. Qed.
Example split_ex2 : Js.split_limit ":" 2 "abc" = ["abc"].
Proof. reflexivity. Qed.
Example parseBegin_ex1 :
  Config.parseChainIndexBegin (Some "12:ff") =
  Ok (Some (Config.At {| Config.slot := 12; Config.hash := "ff" |})).
Proof. reflexivity. Qed.
Example parseBegin_ex2 :
  Config.parseChainIndexBegin (Some "12:") = Throw "Must be <slot>:<hash>".
Proof. reflexivity. Qed.

Example select_development_all :
  select development ["all"] =
  Selected (disabled_warning development <$> disabled development) true
           ["chain"; "ipfs.project_info"; "ipfs.project_announcement"].
Proof. vm_compute; reflexivity. Qed.

Example select_unknown_name :
  select mainnet ["chain"; "bogus"] = Fatal [] "Unexpected indexer: bogus".
Proof. vm_compute; reflexivity. Qed.

Example select_unmatched_prefix :
  select mainnet ["chain"; "x."] = Fatal [] "No indexer with prefix: x.".
Proof. vm_compute; reflexivity. Qed.

Example select_setup_only : select testnet ["setup"] = Selected [] true [].
Proof. vm_compute; reflexivity. Qed.

Example exit_on_sigterm :
  exited (receive (Signal "SIGTERM") sample_machine) = Some 15.
Proof. vm_compute; reflexivity. Qed.
End examples.

(** ** More on the ai.logo indexer *)

Section logo_more.
Import JsMore Logo LogoSpec LogoMore.

Local Arguments String.append : simpl nomatch.

Lemma strip_prefix_spec (p s t : string) :
  strip_prefix p s = Some t ↔ s = p +:+ t.
Proof.
  revert s. induction p as [|c p IH]; intros s; simpl.
  - split; [by intros [= ->] | by intros ->].
  - destruct s as [|d s]; [by split|].
    destruct (Ascii.eqb_spec c d) as [->|Hne].
    + rewrite IH. split; [by intros -> | by intros [= ->]].
    + split; [done | intros [= ? ?]; congruence].
Qed.

Lemma skip_word_split (s : string) :
  ∃ w, s = w +:+ skip_word s ∧ all_word w = true.
Proof.
  induction s as [|c s (w & Hw & Ha)]; simpl.
  - by exists EmptyString.
  - destruct (is_word c) eqn:E.
    + exists (String c w). split.
      * change (String c s = String c (w +:+ skip_word s)). by f_equal.
      * simpl. by rewrite E, Ha.
    + by exists EmptyString.
Qed.

Lemma skip_word_app (w : string) (c : ascii) (t : string) :
  all_word w = true → is_word c = false →
  skip_word (w +:+ String c t) = String c t.
Proof.
  intros Hw Hc. induction w as [|d w IH]; simpl.
  - by rewrite Hc.
  - simpl in Hw. apply andb_true_iff in Hw as [-> Hw]. by apply IH.
Qed.

(** What the pattern of the keys accepts: the prefix, a run of word
    characters that is not empty, a slash, one letter, a slash. *)
Lemma key_letter_spec (key : string) (l : ascii) :
  key_letter key = Some l ↔
  ∃ w rest,
    key = "logos/" +:+ w +:+ "/" +:+ String l ("/" +:+ rest) ∧
    w ≠ EmptyString ∧ all_word w = true ∧ is_letter l = true.
Proof.
  unfold key_letter, LOGO_S3_PREFIX. split.
  - destruct (strip_prefix "logos/" key) as [[|c rest]|] eqn:Hp; try done.
    apply strip_prefix_spec in Hp.
    destruct (is_word c) eqn:Hc; [|done].
    destruct (skip_word_split rest) as (w & Hw & Ha).
    destruct (skip_word rest) as [|s1 [|l' [|s2 r]]] eqn:Hs; try done;
      try (by repeat case_match).
    destruct (Ascii.eqb_spec s1 "/") as [->|Hne1];
      [|repeat case_match; done || congruence].
    destruct (Ascii.eqb_spec s2 "/") as [->|Hne2];
      [|repeat case_match; done || congruence].
    destruct (is_letter l') eqn:Hl; [|done]. intros [= ->].
    exists (String c w), r. split; [|split; [done|split; [|done]]].
    + rewrite Hp, Hw. simpl. done.
    + simpl. by rewrite Hc, Ha.
  - intros (w & rest & -> & Hne & Hw & Hl).
    destruct w as [|c w]; [done|]. simpl in Hw.
    apply andb_true_iff in Hw as [Hc Hw].
    assert (Hp : strip_prefix "logos/"
                   ("logos/" +:+ String c w +:+ "/" +:+ String l ("/" +:+ rest)) =
                 Some (String c (w +:+ "/" +:+ String l ("/" +:+ rest))))
      by by apply strip_prefix_spec.
    rewrite Hp, Hc.
    change (w +:+ "/" +:+ String l ("/" +:+ rest))
      with (w +:+ String "/" (String l (String "/" rest))).
    rewrite skip_word_app by done. by rewrite Hl.
Qed.

Lemma filter_partition_length {A} (f : A → bool) (l : list A) :
  (length (List.filter f l) + length (List.filter (λ x, negb (f x)) l))%nat =
  length l.
Proof.
  induction l as [|x l IH]; [done|]. simpl.
  destruct (f x); simpl; lia.
Qed.

Lemma fetch_pages_well_formed fetched pages st st' :
  fetch_pages fetched pages st = Ok st' →
  Forall (λ page : option (list S3Object), is_Some page) pages ∧
  Forall (λ obj, Js.truthy (Key obj) = true) (pages ≫= default []).
Proof.
  revert st. induction pages as [|page rest IH]; intros st; simpl.
  - intros _. split; constructor.
  - unfold fetchSinglePage. destruct page as [contents|]; simpl; [|done].
    destruct (scan_contents fetched contents st) as [st1|] eqn:E; simpl; [|done].
    intros [Hp Hk]%IH. split; [by constructor|].
    apply Forall_app. split; [|done].
    clear -E. revert st E.
    induction contents as [|obj objs IHc]; intros st; simpl; [constructor|].
    destruct (Js.truthy (Key obj)) eqn:Hkey; simpl; [|done].
    destruct (is_new fetched (ETag obj)); intros E; constructor; eauto.
Qed.

Section handle_facts.
Variable getObject : string → option string → result GetObjectOutput.
Variable ipfs_add : string → result string.
Variable insert_error : option string.

Lemma upsert_lookup (cid letter : string) (etag : option string)
    (table : gmap string (string * option string)) (c : string) :
  upsert cid letter etag table !! c =
  if decide (cid = c) then
    Some (match table !! cid with Some (l, _) => l | None => letter end, etag)
  else table !! c.
Proof.
  unfold upsert. destruct (table !! cid) as [[l e]|] eqn:E;
    rewrite lookup_insert; by case_decide.
Qed.

Lemma upsert_upsert (cid letter : string) (etag : option string)
    (table : gmap string (string * option string)) :
  upsert cid letter etag (upsert cid letter etag table) =
  upsert cid letter etag table.
Proof.
  unfold upsert at 1. rewrite upsert_lookup, decide_True by done.
  unfold upsert. destruct (table !! cid) as [[l e]|]; by rewrite insert_insert_eq.
Qed.

Lemma letter_capital (l : ascii) :
  is_letter l = true → capital (String (upper l) EmptyString).
Proof.
  intros H. exists (upper l). split; [done|]. revert H.
  destruct l as [[] [] [] [] [] [] [] []]; vm_compute; try discriminate;
    intros _; split; discriminate.
Qed.

(** X1.  [handle] returns without throwing only for a key made of the
    prefix [logos/], a run of word characters that is not empty, a slash,
    one letter and a slash; for any other key it throws "Malformed logo
    S3 key" and leaves the fetched set and the table as they were. *)
Theorem handle_key_pattern (fetched : gset string)
    (table : gmap string (string * option string)) (task : Task) :
  (∀ st, handle getObject ipfs_add insert_error fetched table task = (st, Ok tt) →
     ∃ w l rest,
       key task = "logos/" +:+ w +:+ "/" +:+ String l ("/" +:+ rest) ∧
       w ≠ EmptyString ∧ all_word w = true ∧ is_letter l = true) ∧
  ((∀ w l rest,
      key task = "logos/" +:+ w +:+ "/" +:+ String l ("/" +:+ rest) →
      w ≠ EmptyString → all_word w = true → is_letter l = false) →
   handle getObject ipfs_add insert_error fetched table task =
   ((fetched, table), Throw ("Malformed logo S3 key: " +:+ key task))).
Proof.
  split.
  - intros st. unfold handle.
    destruct (key_letter (key task)) as [l|] eqn:Hk; [|done].
    intros _. apply key_letter_spec in Hk as (w & rest & ? & ? & ? & ?).
    by exists w, l, rest.
  - intros Hno. unfold handle.
    destruct (key_letter (key task)) as [l|] eqn:Hk; [|done].
    apply key_letter_spec in Hk as (w & rest & Hkey & Hne & Hw & Hl).
    rewrite (Hno w l rest Hkey Hne Hw) in Hl. done.
Qed.

(** X2.  [handle] never removes an ETag from the fetched set; and when it
    returns without throwing, the ETag that [GetObject] answered is in
    the set, so that no later fetch of this process, whatever was added
    to the set since, emits a task for an object listed with that
    ETag. *)
Theorem handle_then_fetch_skips (fetched fetched' : gset string)
    (table table' : gmap string (string * option string)) (task : Task)
    (outcome : result unit) :
  handle getObject ipfs_add insert_error fetched table task =
    ((fetched', table'), outcome) →
  fetched ⊆ fetched' ∧
  (∀ res e,
     outcome = Ok tt →
     getObject (key task) (etag task) = Ok res → res_ETag res = Some e →
     e ∈ fetched' ∧
     ∀ s3 later r,
       fetched' ⊆ later → fetchTasksFromS3 s3 later = Ok r →
       ∀ t, t ∈ tasks r → etag t ≠ Some e).
Proof.
  unfold handle.
  destruct (key_letter (key task)) as [l|]; [|by intros [= <- <- <-]].
  destruct (getObject (key task) (etag task)) as [res|msg] eqn:Hget;
    [|by intros [= <- <- <-]].
  destruct (Body res) as [body|]; [|by intros [= <- <- <-]].
  destruct (ipfs_add body) as [cid|msg]; [|by intros [= <- <- <-]].
  assert (Hsub : fetched ⊆ match res_ETag res with
                           | Some e => {[e]} ∪ fetched
                           | None => fetched
                           end).
  { destruct (res_ETag res); [apply union_subseteq_r | done]. }
  destruct insert_error as [msg|]; intros [= <- <- <-]; (split; [done|]).
  - intros res' e [=].
  - intros res' e _ [= <-] He. rewrite He. split; [apply elem_of_union_l; by apply elem_of_singleton|].
    intros s3 later r Hlater Hfetch t Ht Het.
    apply fetch_pages_ok in Hfetch as [Htasks _]. simpl in Htasks.
    rewrite Htasks in Ht. apply list_elem_of_fmap in Ht as (o & -> & Ho).
    apply list_elem_of_In, List.filter_In in Ho as [_ Hem].
    unfold emitted, is_new in Hem. simpl in Het. rewrite Het in Hem.
    apply negb_true_iff, bool_decide_eq_false in Hem. apply Hem, Hlater.
    apply elem_of_union_l. by apply elem_of_singleton.
Qed.

(** X3.  When every step before the [INSERT] goes through and the
    [INSERT] throws, [handle] throws and the table is as it was, yet the
    ETag of the object is already in the fetched set: the set that
    [initialize] would rebuild from the table after a restart does not
    have it, unless a row had it before. *)
Theorem handle_failed_insert_remembers_etag (fetched : gset string)
    (table : gmap string (string * option string)) (task : Task)
    (l : ascii) (res : GetObjectOutput) (body cid e msg : string) :
  key_letter (key task) = Some l →
  getObject (key task) (etag task) = Ok res →
  Body res = Some body → res_ETag res = Some e →
  ipfs_add body = Ok cid →
  insert_error = Some msg →
  handle getObject ipfs_add insert_error fetched table task =
    (({[e]} ∪ fetched, table), Throw msg) ∧
  e ∈ ({[e]} ∪ fetched : gset string) ∧
  ((∀ row, row ∈ rows_of table → row_etag row ≠ Some e) →
   e ∉ initialize (rows_of table) ∅).
Proof.
  intros Hk Hget Hb He Hadd Hins. unfold handle.
  rewrite Hk, Hget, Hb, Hadd, He, Hins. split; [done|].
  split; [apply elem_of_union_l; by apply elem_of_singleton|].
  intros Hno. rewrite initialize_union, elem_of_union, elem_of_list_to_set.
  rewrite elem_of_select_etags. intros [Hin|(row & Hrow & Het)].
  - by apply elem_of_empty in Hin.
  - by apply (Hno row).
Qed.

(** X4.  What [handle] persists, [initialize] restores: when [handle]
    returns without throwing and [GetObject] answered an ETag, the table
    has a row with that ETag under the [cid] that the content store
    returned, and [initialize] on the rows of the table, from an empty
    set, has the ETag. *)
Theorem handle_persists_for_initialize (fetched fetched' : gset string)
    (table table' : gmap string (string * option string)) (task : Task)
    (res : GetObjectOutput) (body cid e : string) :
  handle getObject ipfs_add insert_error fetched table task =
    ((fetched', table'), Ok tt) →
  getObject (key task) (etag task) = Ok res →
  Body res = Some body → ipfs_add body = Ok cid →
  res_ETag res = Some e →
  (∃ letter, table' !! cid = Some (letter, Some e)) ∧
  e ∈ initialize (rows_of table') ∅.
Proof.
  unfold handle. intros H Hget Hb Hadd He. revert H.
  destruct (key_letter (key task)) as [l|]; [|done].
  rewrite Hget, Hb, Hadd, He.
  destruct insert_error as [msg|]; [done|]. intros [= <- <-].
  assert (Hrow : ∃ letter,
            upsert cid (String (upper l) EmptyString) (Some e) table !! cid =
            Some (letter, Some e)).
  { rewrite upsert_lookup, decide_True by done. eauto. }
  split; [done|]. destruct Hrow as [letter Hrow].
  rewrite initialize_union, elem_of_union, elem_of_list_to_set. right.
  apply elem_of_select_etags.
  exists {| cid := cid; letter := letter; row_etag := Some e |}.
  split; [|done]. unfold rows_of. apply list_elem_of_fmap.
  exists (cid, (letter, Some e)). split; [done|].
  by apply elem_of_map_to_list.
Qed.

(** X5.  Handling a task again changes nothing: when [handle] returns
    without throwing, [handle] on the same task, from the fetched set and
    the table it left and with the object store and the content store
    answering as before, returns without throwing and leaves the same
    set and the same table. *)
Theorem handle_idempotent (fetched fetched' : gset string)
    (table table' : gmap string (string * option string)) (task : Task) :
  handle getObject ipfs_add insert_error fetched table task =
    ((fetched', table'), Ok tt) →
  handle getObject ipfs_add insert_error fetched' table' task =
    ((fetched', table'), Ok tt).
Proof.
  unfold handle.
  destruct (key_letter (key task)) as [l|]; [|done].
  destruct (getObject (key task) (etag task)) as [res|msg]; [|done].
  destruct (Body res) as [body|]; [|done].
  destruct (ipfs_add body) as [cid|msg]; [|done].
  destruct insert_error as [msg|]; [done|]. intros [= <- <-].
  rewrite upsert_upsert. do 2 f_equal.
  destruct (res_ETag res) as [e|]; [|done].
  rewrite (assoc_L (∪)). by rewrite (idemp_L (∪)).
Qed.

(** X6.  [handle] keeps the letters of the table capital: when every row
    has one letter of [A-Z] for its letter, so has every row after
    [handle], whatever its outcome. *)
Theorem handle_keeps_letters_capital (fetched fetched' : gset string)
    (table table' : gmap string (string * option string)) (task : Task)
    (outcome : result unit) :
  letters_capital table →
  handle getObject ipfs_add insert_error fetched table task =
    ((fetched', table'), outcome) →
  letters_capital table'.
Proof.
  intros Hcap. unfold handle.
  destruct (key_letter (key task)) as [l|] eqn:Hk; [|by intros [= <- <- <-]].
  destruct (getObject (key task) (etag task)) as [res|msg];
    [|by intros [= <- <- <-]].
  destruct (Body res) as [body|]; [|by intros [= <- <- <-]].
  destruct (ipfs_add body) as [cid|msg]; [|by intros [= <- <- <-]].
  destruct insert_error as [msg|]; intros [= <- <- <-]; [done|].
  intros c l' e'. rewrite upsert_lookup. case_decide as Hc; [|apply Hcap].
  intros [= <- <-].
  destruct (table !! cid) as [[l0 e0]|] eqn:Hrow; [by eapply Hcap|].
  apply letter_capital.
  by apply key_letter_spec in Hk as (w & rest & _ & _ & _ & Hl).
Qed.
End handle_facts.

(** X7.  A fetch that returns accounts for every listed object: the tasks
    and the skipped objects together are as many as the objects listed,
    and the keys of the tasks are the keys of the emitted objects in the
    order of the listing, page after page. *)
Theorem fetch_accounts_for_every_object (s3 : Listing)
    (fetched : gset string) (r : FetchState) :
  fetchTasksFromS3 s3 fetched = Ok r →
  (length (tasks r) + skipped r)%nat = length (listed s3) ∧
  key <$> tasks r =
    (λ o, default EmptyString (Key o)) <$> List.filter (emitted fetched) (listed s3) ∧
  sublist (key <$> tasks r) ((λ o, default EmptyString (Key o)) <$> listed s3).
Proof.
  intros H. apply fetch_pages_ok in H as [Ht Hs].
  change ((first_page s3 :: next_pages s3) ≫= default []) with (listed s3)
    in Ht, Hs.
  cbn [tasks skipped app Nat.add] in Ht, Hs. rewrite Ht, Hs, length_fmap.
  split; [apply filter_partition_length|].
  rewrite <- list_fmap_compose.
  split; [done|].
  apply fmap_sublist.
  generalize (listed s3) as l. induction l as [|o l IH]; [constructor|]. simpl.
  destruct (emitted fetched o); [by apply sublist_skip | by apply sublist_cons].
Qed.

(** X8.  A fetch is all or nothing: it returns exactly when every
    response of the listing has [Contents] and every listed object has a
    key; in particular a first response without [Contents] makes it throw
    "S3 Contents must be defined". *)
Theorem fetch_all_or_nothing (s3 : Listing) (fetched : gset string) :
  ((∃ r, fetchTasksFromS3 s3 fetched = Ok r) ↔ well_formed s3) ∧
  (first_page s3 = None →
   fetchTasksFromS3 s3 fetched = Throw "S3 Contents must be defined").
Proof.
  split; [split|].
  - intros [r Hr]. by apply fetch_pages_well_formed in Hr.
  - intros [Hp Hk]. by apply fetch_pages_total.
  - intros Hf. unfold fetchTasksFromS3. rewrite Hf. done.
Qed.
End logo_more.

(** ** More on the configuration *)

Section config_more.
Import Js JsMore Config ConfigSpec ConfigMore ConfigMoreSpec.

Local Arguments String.append : simpl nomatch.
Local Arguments Js.parseInt : simpl never.

Lemma split_no_sep (sep : ascii) (s : string) :
  has_char sep s = false → Js.split sep s = [s].
Proof.
  induction s as [|c s IH]; simpl; [done|].
  intros [Hc Hs]%orb_false_iff. rewrite Hc, IH by done. done.
Qed.

Lemma split_app_sep (sep : ascii) (a t : string) :
  has_char sep a = false →
  Js.split sep (a +:+ String sep t) = a :: Js.split sep t.
Proof.
  induction a as [|c a IH]; simpl.
  - intros _. by rewrite Ascii.eqb_refl.
  - intros [Hc Ha]%orb_false_iff. rewrite Hc, IH by done. done.
Qed.

Lemma split_fields_no_sep (sep : ascii) (s : string) :
  Forall (λ f, has_char sep f = false) (Js.split sep s) ∧ Js.split sep s ≠ [].
Proof.
  induction s as [|c s [IH1 IH2]]; simpl.
  - split; [by repeat constructor | done].
  - destruct (Ascii.eqb c sep) eqn:E.
    + split; [by constructor | done].
    + destruct (Js.split sep s) as [|f fs]; [done|].
      apply Forall_cons in IH1 as [Hf Hfs].
      split; [|done]. constructor; [|done]. simpl. by rewrite E, Hf.
Qed.

Lemma has_char_app (c : ascii) (a t : string) :
  has_char c (a +:+ String c t) = true.
Proof.
  induction a as [|d a IH]; simpl; [by rewrite Ascii.eqb_refl|].
  by rewrite IH, orb_true_r.
Qed.

Lemma not_keyword (s : string) :
  has_char ":" s = true →
  String.eqb s "origin" = false ∧ String.eqb s "tip" = false.
Proof.
  intros H. split; apply String.eqb_neq; intros ->; by vm_compute in H.
Qed.

Lemma dots_then_no_slash_end (p s : string) :
  dots_then_no_slash s = true → Js.endsWith (p +:+ s) "/" = false.
Proof.
  intros Hs.
  assert (Hne : s ≠ EmptyString) by (intros ->; done).
  assert (Hend : Js.endsWith s "/" = false).
  { clear Hne. induction s as [|c s IH]; [done|].
    simpl in Hs. destruct s as [|d s].
    - apply negb_true_iff in Hs. simpl. rewrite Hs. done.
    - apply andb_true_iff in Hs as [_ Hs].
      change (Js.endsWith (String c (String d s)) "/")
        with (String.eqb (String c (String d s)) "/" ||
              Js.endsWith (String d s) "/").
      rewrite IH by done. rewrite orb_false_r.
      simpl. by destruct (Ascii.eqb c "/"). }
  induction p as [|a p IH]; [done|].
  change (String.eqb (String a (p +:+ s)) "/" || Js.endsWith (p +:+ s) "/" = false).
  rewrite IH, orb_false_r. simpl.
  destruct (Ascii.eqb a "/"); [|done].
  destruct p; [by destruct s | done].
Qed.

Lemma strip_prefix_starts (p s t : string) :
  strip_prefix p s = Some t → Js.startsWith s p = true ∧ s = p +:+ t.
Proof.
  revert s. induction p as [|c p IH]; intros s; simpl.
  - intros [= ->]. by destruct t.
  - destruct s as [|d s]; [done|].
    destruct (Ascii.eqb_spec c d) as [->|Hne]; [|done].
    intros [Hs ->]%IH. simpl. by rewrite Ascii.eqb_refl.
Qed.

Lemma requiredEnv_Ok (env : gmap string string) (key value : string) :
  requiredEnv env key = Ok value → env !! key = Some value ∧ value ≠ EmptyString.
Proof.
  unfold requiredEnv. destruct (env !! key) as [[|c v]|]; simpl; [done| |done].
  by intros [= <-].
Qed.

Lemma cexplorer_url_ok_spec (u : string) :
  cexplorer_url_ok u = true →
  (Js.startsWith u "http://" = true ∨ Js.startsWith u "https://" = true) ∧
  Js.endsWith u "/" = false ∧ u ≠ "http://" ∧ u ≠ "https://".
Proof.
  unfold cexplorer_url_ok. intros Hok. apply orb_true_iff in Hok.
  assert (Hrest : ∃ pre rest, (pre = "http://" ∨ pre = "https://") ∧
            strip_prefix pre u = Some rest ∧ dots_then_no_slash rest = true).
  { destruct Hok as [Hok|Hok].
    - destruct (strip_prefix "http://" u) as [rest|] eqn:Hs; [|done].
      exists "http://", rest. auto.
    - destruct (strip_prefix "https://" u) as [rest|] eqn:Hs; [|done].
      exists "https://", rest. auto. }
  destruct Hrest as (pre & rest & Hpre & Hs & Hd).
  apply strip_prefix_starts in Hs as [Hstart ->].
  split; [destruct Hpre as [-> | ->]; auto|].
  split; [by apply dots_then_no_slash_end|].
  assert (Hne : rest ≠ EmptyString) by (by destruct rest).
  assert (Hlen : (0 < String.length rest)%nat) by (destruct rest; simpl; [done|lia]).
  split; intros E; destruct Hpre as [-> | ->]; simpl in E; congruence.
Qed.

(** X9.  What [config.cardano()] returns is well formed: the network is
    one of [preview], [preprod] and [mainnet]; the explorer URL starts
    with [http://] or [https://], has at least one character after that
    and does not end with a slash; and both are the values of the
    environment. *)
Theorem cardano_result_well_formed (env : gmap string string) (c : Cardano) :
  cardano env = Ok c →
  NETWORK c ∈ ["preview"; "preprod"; "mainnet"] ∧
  env !! "NETWORK" = Some (NETWORK c) ∧
  env !! "CEXPLORER_URL" = Some (CEXPLORER_URL c) ∧
  (Js.startsWith (CEXPLORER_URL c) "http://" = true ∨
   Js.startsWith (CEXPLORER_URL c) "https://" = true) ∧
  Js.endsWith (CEXPLORER_URL c) "/" = false ∧
  CEXPLORER_URL c ≠ "http://" ∧ CEXPLORER_URL c ≠ "https://".
Proof.
  unfold cardano. intros H.
  destruct (requiredEnv env "NETWORK") as [n|] eqn:Hn; [|done].
  apply requiredEnv_Ok in Hn as [Hn _]. cbn [mbind result_bind] in H.
  unfold assert in H.
  destruct (String.eqb n "preview" || String.eqb n "preprod"
            || String.eqb n "mainnet") eqn:Hnet; [|done].
  cbn [mbind result_bind] in H.
  destruct (requiredEnv env "CEXPLORER_URL") as [u|] eqn:Hu; [|done].
  apply requiredEnv_Ok in Hu as [Hu _]. cbn [mbind result_bind] in H.
  destruct (cexplorer_url_ok u) eqn:Hok; [|done].
  cbn [mbind result_bind] in H. injection H as <-. cbn [NETWORK CEXPLORER_URL].
  split.
  { apply orb_true_iff in Hnet as [Hnet|Hnet];
      [apply orb_true_iff in Hnet as [Hnet|Hnet]|];
      apply String.eqb_eq in Hnet; rewrite Hnet; set_solver. }
  split; [done|]. split; [done|]. by apply cexplorer_url_ok_spec.
Qed.

(** X10.  The errors of [config.chain()] come in the order of its steps:
    a missing or empty [CHAIN_INDEX_CONFIG] is reported whatever the rest
    holds; then a file that does not load, also when [CHAIN_INDEX_BEGIN]
    is malformed; then the begin position, also when [CHAIN_INDEX_END] is
    malformed; and only when there is a begin position does a malformed
    [CHAIN_INDEX_END] make it throw "Must be <slot>". *)
Theorem chain_error_precedence (readConfig : string → result ChainFile)
    (env : gmap string string) :
  (env !! "CHAIN_INDEX_CONFIG" = None ∨
   env !! "CHAIN_INDEX_CONFIG" = Some EmptyString →
   chain readConfig env = Throw "CHAIN_INDEX_CONFIG must be set") ∧
  (∀ path msg,
     requiredEnv env "CHAIN_INDEX_CONFIG" = Ok path →
     readConfig path = Throw msg →
     chain readConfig env = Throw msg) ∧
  (∀ path cfg msg,
     requiredEnv env "CHAIN_INDEX_CONFIG" = Ok path →
     readConfig path = Ok cfg →
     parseChainIndexBegin (env !! "CHAIN_INDEX_BEGIN") = Throw msg →
     chain readConfig env = Throw msg) ∧
  (∀ path cfg,
     requiredEnv env "CHAIN_INDEX_CONFIG" = Ok path →
     readConfig path = Ok cfg →
     parseChainIndexBegin (env !! "CHAIN_INDEX_BEGIN") = Ok None →
     bootstrap cfg = [] →
     chain readConfig env = Throw missing_begin) ∧
  (∀ path cfg begin msg,
     requiredEnv env "CHAIN_INDEX_CONFIG" = Ok path →
     readConfig path = Ok cfg →
     parseChainIndexBegin (env !! "CHAIN_INDEX_BEGIN") = Ok begin →
     is_Some begin ∨ bootstrap cfg ≠ [] →
     parseChainIndexEnd (env !! "CHAIN_INDEX_END") = Throw msg →
     chain readConfig env = Throw "Must be <slot>").
Proof.
  split; [|split; [|split; [|split]]].
  - intros H. unfold chain, requiredEnv. by destruct H as [-> | ->].
  - intros path msg Hp Hr. unfold chain. rewrite Hp.
    cbn [mbind result_bind]. by rewrite Hr.
  - intros path cfg msg Hp Hr Hb. unfold chain. rewrite Hp.
    cbn [mbind result_bind]. rewrite Hr. cbn [mbind result_bind]. by rewrite Hb.
  - intros path cfg Hp Hr Hb Hbs. unfold chain. rewrite Hp.
    cbn [mbind result_bind]. rewrite Hr. cbn [mbind result_bind]. rewrite Hb.
    cbn [mbind result_bind]. by rewrite Hbs.
  - intros path cfg begin msg Hp Hr Hb Hsome He.
    assert (Hmsg : msg = "Must be <slot>").
    { revert He. unfold parseChainIndexEnd, assert.
      destruct (negb _); [done|]. destruct (String.eqb _ _); [done|].
      destruct (bool_decide _); [done|]. by intros [= <-]. }
    subst msg.
    unfold chain. rewrite Hp.
    cbn [mbind result_bind]. rewrite Hr. cbn [mbind result_bind]. rewrite Hb.
    cbn [mbind result_bind].
    destruct begin as [b|].
    + by rewrite He.
    + destruct Hsome as [[? [=]]|Hbs].
      destruct (bootstrap cfg) as [|p ps]; [done|]. cbn [head fmap option_fmap option_map].
      by rewrite He.
Qed.

Lemma parseChainIndexBegin_fields (text : string) :
  has_char ":" text = true →
  parseChainIndexBegin (Some text) =
  (let parts := take 2 (Js.split ":" text) in
   let slot := Js.parseInt (default EmptyString (parts !! 0%nat)) in
   if bool_decide (is_Some slot) && Js.truthy (parts !! 1%nat)
   then Ok (Some (At {| slot := default 0 slot;
                        hash := default EmptyString (parts !! 1%nat) |}))
   else Throw "Must be <slot>:<hash>").
Proof.
  intros H. destruct (not_keyword text H) as [Ho Ht].
  destruct text as [|c text]; [done|].
  unfold parseChainIndexBegin, assert, Js.split_limit.
  change (default EmptyString (Some (String c text))) with (String c text).
  change (negb (Js.truthy (Some (String c text)))) with false.
  cbv iota zeta. rewrite Ho, Ht.
  by destruct (bool_decide _ && _).
Qed.

(** X11.  [parseChainIndexBegin] reads the text up to the first colon as
    the slot and the text between the first and the second colon as the
    hash; what follows a second colon is ignored. *)
Theorem begin_ignores_after_second_colon (slotText hashText more : string) :
  has_char ":" slotText = false → has_char ":" hashText = false →
  parseChainIndexBegin (Some (slotText +:+ String ":" (hashText +:+ String ":" more))) =
  parseChainIndexBegin (Some (slotText +:+ String ":" hashText)).
Proof.
  intros Hs Hh.
  rewrite !parseChainIndexBegin_fields by apply has_char_app.
  rewrite !split_app_sep by done. rewrite (split_no_sep ":" hashText) by done.
  by destruct (Js.split ":" more).
Qed.

(** X12.  A point that [parseChainIndexBegin] returns has a hash that is
    not empty and holds no colon, and comes from a text other than the two
    keywords. *)
Theorem begin_point_has_hash (raw : option string) (p : Point) :
  parseChainIndexBegin raw = Ok (Some (At p)) →
  hash p ≠ EmptyString ∧ has_char ":" (hash p) = false ∧
  raw ≠ Some "origin" ∧ raw ≠ Some "tip" ∧
  ∃ text, raw = Some text ∧ has_char ":" text = true.
Proof.
  intros H. destruct raw as [text|]; [|done].
  destruct (has_char ":" text) eqn:Hc.
  2:{ exfalso. destruct text as [|c t]; [done|].
      revert H. unfold parseChainIndexBegin, assert, Js.split_limit.
      rewrite split_no_sep by done.
      change (negb (Js.truthy (Some (String c t)))) with false.
      change (default EmptyString (Some (String c t))) with (String c t).
      cbv iota zeta.
      destruct (String.eqb _ "origin"); [done|].
      destruct (String.eqb _ "tip"); [done|].
      change (Js.truthy (take 2 [String c t] !! 1%nat)) with false.
      by rewrite andb_false_r. }
  destruct (not_keyword text Hc) as [Ho Ht].
  rewrite parseChainIndexBegin_fields in H by done.
  destruct (split_fields_no_sep ":" text) as [Hf Hne].
  destruct (Js.split ":" text) as [|f1 [|f2 fs]]; [done| |].
  - cbv zeta in H.
    change (Js.truthy (take 2 [f1] !! 1%nat)) with false in H.
    by rewrite andb_false_r in H.
  - apply Forall_cons in Hf as [_ Hf]. apply Forall_cons in Hf as [Hf2 _].
    cbv zeta in H.
    change (take 2 (f1 :: f2 :: fs) !! 1%nat) with (Some f2) in H.
    destruct (bool_decide _ && Js.truthy (Some f2)) eqn:E; [|done].
    injection H as <-. cbn [hash].
    apply andb_true_iff in E as [_ E].
    split; [by destruct f2|]. split; [done|].
    split; [intros [= ->]; by apply String.eqb_neq in Ho|].
    split; [intros [= ->]; by apply String.eqb_neq in Ht|]. eauto.
Qed.

Lemma digit_value_pretty_N_char (d : N) :
  (d < 10)%N → digit_value 10 (pretty_N_char d) = Some (Z.of_N d).
Proof.
  intros H.
  assert (d = 0 ∨ d = 1 ∨ d = 2 ∨ d = 3 ∨ d = 4 ∨ d = 5 ∨ d = 6 ∨ d = 7
          ∨ d = 8 ∨ d = 9)%N as Hd by lia.
  repeat destruct Hd as [->|Hd]; try subst d; reflexivity.
Qed.

Lemma pretty_N_go_app (x : N) (s t : string) :
  pretty_N_go x s +:+ t = pretty_N_go x (s +:+ t).
Proof.
  revert s. induction (N.lt_wf_0 x) as [x _ IH]; intros s.
  assert (x = 0 ∨ 0 < x)%N as [->|?] by lia; [by rewrite !pretty_N_go_0|].
  rewrite (pretty_N_go_step x s), (pretty_N_go_step x (s +:+ t)) by done.
  by rewrite IH by (by apply N.div_lt).
Qed.

Lemma pretty_N_go_head (x : N) (s : string) :
  (0 < x)%N →
  ∃ d s', (0 < d < 10)%N ∧ pretty_N_go x s = String (pretty_N_char d) s'.
Proof.
  revert s. induction (N.lt_wf_0 x) as [x _ IH]; intros s Hx.
  rewrite pretty_N_go_step by done.
  destruct (decide (x `div` 10 = 0)%N) as [H0|Hpos%N.neq_0_lt_0].
  - rewrite H0, pretty_N_go_0. exists (x `mod` 10)%N, s.
    split; [|done]. apply N.div_small_iff in H0; [|done].
    rewrite N.mod_small by done. lia.
  - apply IH; [by apply N.div_lt | done].
Qed.

Lemma read_digits_pretty_N_go (x : N) (s : string) (acc : option Z) :
  (0 < x)%N →
  ∃ k : Z, 0 <= k ∧
    read_digits 10 (pretty_N_go x s) acc =
    read_digits 10 s (Some (10 ^ k * default 0 acc + Z.of_N x)).
Proof.
  revert s acc. induction (N.lt_wf_0 x) as [x _ IH]; intros s acc Hx.
  rewrite pretty_N_go_step by done.
  assert (Hmod : (x `mod` 10 < 10)%N) by (by apply N.mod_lt).
  pose proof (N.div_mod x 10 ltac:(done)) as Hdm.
  apply (f_equal Z.of_N) in Hdm. rewrite N2Z.inj_add, N2Z.inj_mul in Hdm.
  change (Z.of_N 10) with 10 in Hdm.
  destruct (decide (x `div` 10 = 0)%N) as [H0|Hpos%N.neq_0_lt_0].
  - rewrite H0 in *. rewrite pretty_N_go_0. exists 1. split; [done|].
    cbn [read_digits]. rewrite digit_value_pretty_N_char by done.
    f_equal. f_equal. rewrite Hdm. change (10 ^ 1) with 10.
    change (Z.of_N 0) with 0. ring.
  - destruct (IH (x `div` 10)%N ltac:(by apply N.div_lt)
               (String (pretty_N_char (x `mod` 10)) s) acc Hpos) as (k & Hk & ->).
    exists (k + 1). split; [lia|].
    cbn [read_digits]. rewrite digit_value_pretty_N_char by done.
    f_equal. f_equal. rewrite Z.pow_add_r by lia.
    rewrite Hdm. change (10 ^ 1) with 10. cbn [default from_option id]. ring.
Qed.

Lemma read_digits_stops (rest : string) (acc : option Z) :
  stops rest → read_digits 10 rest acc = acc.
Proof. destruct rest as [|c rest]; [done|]. intros [H _]. simpl. by rewrite H. Qed.

Lemma parseInt_nonzero_digit (d : N) (s : string) :
  (0 < d < 10)%N →
  parseInt (String (pretty_N_char d) s) =
  read_digits 10 (String (pretty_N_char d) s) None.
Proof.
  intros H.
  assert (d = 1 ∨ d = 2 ∨ d = 3 ∨ d = 4 ∨ d = 5 ∨ d = 6 ∨ d = 7
          ∨ d = 8 ∨ d = 9)%N as Hd by lia.
  unfold parseInt.
  repeat destruct Hd as [->|Hd]; try subst d;
    cbn [pretty_N_char trim_start]; 
    match goal with |- context [is_white ?c] => change (is_white c) with false end;
    cbv iota; 
    (destruct (read_digits _ _ _) as [n|]; [|done]); cbn [fmap option_fmap option_map];
    f_equal; lia.
Qed.

Lemma parseInt_minus_nonzero_digit (d : N) (s : string) :
  (0 < d < 10)%N →
  parseInt (String "-" (String (pretty_N_char d) s)) =
  Z.opp <$> read_digits 10 (String (pretty_N_char d) s) None.
Proof.
  intros H.
  assert (d = 1 ∨ d = 2 ∨ d = 3 ∨ d = 4 ∨ d = 5 ∨ d = 6 ∨ d = 7
          ∨ d = 8 ∨ d = 9)%N as Hd by lia.
  unfold parseInt.
  repeat destruct Hd as [->|Hd]; try subst d;
    cbn [pretty_N_char trim_start];
    change (is_white "-") with false; cbv iota;
    (destruct (read_digits _ _ _) as [n|]; [|done]);
    cbn [fmap option_fmap option_map]; f_equal; lia.
Qed.

Lemma read_pretty_N_go (x : N) (rest : string) :
  (0 < x)%N → stops rest →
  read_digits 10 (pretty_N_go x rest) None = Some (Z.of_N x).
Proof.
  intros Hx Hrest.
  destruct (read_digits_pretty_N_go x rest None Hx) as (k & _ & ->).
  rewrite read_digits_stops by done. cbn [default from_option id].
  f_equal. lia.
Qed.

Lemma parseInt_pretty (n : Z) (rest : string) :
  stops rest → parseInt (pretty n +:+ rest) = Some n.
Proof.
  intros Hrest. destruct n as [|p|p].
  - change (pretty 0 +:+ rest) with (String "0" rest).
    destruct rest as [|c rest]; [done|]. destruct Hrest as (Hd & Hx & HX).
    unfold parseInt. cbn [trim_start]. change (is_white "0") with false.
    cbv iota.
    destruct c as [[] [] [] [] [] [] [] []]; try done;
      cbn [read_digits]; rewrite Hd; done.
  - change (pretty (Z.pos p)) with (pretty_N_go (N.pos p) "").
    rewrite pretty_N_go_app.
    destruct (pretty_N_go_head (N.pos p) ("" +:+ rest) eq_refl) as (d & s' & Hd & Hs).
    rewrite Hs, parseInt_nonzero_digit by done. rewrite <-Hs.
    by apply read_pretty_N_go.
  - change (pretty (Z.neg p) +:+ rest)
      with (String "-" (pretty_N_go (N.pos p) "" +:+ rest)).
    rewrite pretty_N_go_app.
    destruct (pretty_N_go_head (N.pos p) ("" +:+ rest) eq_refl) as (d & s' & Hd & Hs).
    rewrite Hs, parseInt_minus_nonzero_digit by done. rewrite <-Hs.
    by rewrite read_pretty_N_go.
Qed.

Lemma pretty_N_go_no_colon (x : N) (s : string) :
  has_char ":" s = false → has_char ":" (pretty_N_go x s) = false.
Proof.
  revert s. induction (N.lt_wf_0 x) as [x _ IH]; intros s Hs.
  destruct (decide (x = 0)%N) as [->|Hx%N.neq_0_lt_0]; [by rewrite pretty_N_go_0|].
  rewrite pretty_N_go_step by done. apply IH; [by apply N.div_lt|].
  cbn [has_char]. rewrite Hs, orb_false_r.
  unfold pretty_N_char. by repeat case_match.
Qed.

Lemma pretty_no_colon (n : Z) : has_char ":" (pretty n) = false.
Proof.
  destruct n as [|p|p]; [done| |].
  - by apply pretty_N_go_no_colon.
  - change (pretty (Z.neg p)) with (String "-" (pretty_N_go (N.pos p) "")).
    cbn [has_char]. by rewrite pretty_N_go_no_colon.
Qed.

Lemma pretty_head (n : Z) (rest : string) :
  ∃ c s, pretty n +:+ rest = String c s ∧
         (c = "-"%char ∨ ∃ d, (d < 10)%N ∧ c = pretty_N_char d).
Proof.
  destruct n as [|p|p].
  - exists "0"%char, rest. split; [done|]. right. by exists 0%N.
  - change (pretty (Z.pos p)) with (pretty_N_go (N.pos p) "").
    rewrite pretty_N_go_app.
    destruct (pretty_N_go_head (N.pos p) ("" +:+ rest) eq_refl) as (d & s' & Hd & Hs).
    exists (pretty_N_char d), s'. split; [done|]. right. exists d. split; [lia|done].
  - exists "-"%char, (pretty_N_go (N.pos p) "" +:+ rest). split; [done|]. by left.
Qed.

Lemma pretty_not_tip (n : Z) (rest : string) :
  String.eqb (pretty n +:+ rest) "tip" = false.
Proof.
  destruct (pretty_head n rest) as (c & s & -> & [->|(d & Hd & ->)]); [done|].
  assert (d = 0 ∨ d = 1 ∨ d = 2 ∨ d = 3 ∨ d = 4 ∨ d = 5 ∨ d = 6 ∨ d = 7
          ∨ d = 8 ∨ d = 9)%N as H by lia.
  by repeat destruct H as [->|H]; try subst d.
Qed.

(** X13.  Writing a point and reading it back: the decimal text of a
    slot, a colon and a hash that is not empty and holds no colon parse
    to the point of that slot and that hash (for a slot in the range
    where a Number holds an integer exactly). *)
Theorem begin_round_trip (n : Z) (h : string) :
  - 2 ^ 53 <= n <= 2 ^ 53 → h ≠ EmptyString → has_char ":" h = false →
  parseChainIndexBegin (Some (pretty n +:+ String ":" h)) =
  Ok (Some (At {| slot := n; hash := h |})).
Proof.
  intros _ Hne Hh.
  rewrite parseChainIndexBegin_fields by apply has_char_app.
  rewrite split_app_sep by apply pretty_no_colon.
  rewrite split_no_sep by done. cbv zeta.
  change (take 2 [pretty n; h] !! 0%nat) with (Some (pretty n)).
  change (take 2 [pretty n; h] !! 1%nat) with (Some h).
  cbn [default from_option id].
  assert (Hp : parseInt (pretty n) = Some n).
  { pose proof (parseInt_pretty n "" I) as H.
    replace (pretty n +:+ "") with (pretty n) in H; [done|].
    clear. induction (pretty n) as [|c s IH]; [done|]. simpl. by rewrite <-IH. }
  rewrite Hp. rewrite bool_decide_eq_true_2 by eauto.
  by destruct h.
Qed.

(** X14.  [parseChainIndexEnd] reads the number that its text starts
    with and ignores what follows it: the decimal text of a slot, also a
    negative one, followed by nothing or by a text that does not go on
    with the number, is accepted as that slot (in the range where a
    Number holds an integer exactly). *)
Theorem end_reads_leading_number (n : Z) (rest : string) :
  - 2 ^ 53 <= n <= 2 ^ 53 → stops rest →
  parseChainIndexEnd (Some (pretty n +:+ rest)) = Ok (Some (EndSlot n)).
Proof.
  intros _ Hrest. unfold parseChainIndexEnd, assert.
  destruct (pretty_head n rest) as (c & s & Hs & _).
  assert (Ht : Js.truthy (Some (pretty n +:+ rest)) = true) by (by rewrite Hs).
  rewrite Ht. cbn [negb default from_option id].
  rewrite pretty_not_tip, parseInt_pretty by done.
  by rewrite bool_decide_eq_true_2 by eauto.
Qed.
End config_more.

(** ** More about the entry point *)

Section index_more.
Import Index IndexSpec IndexMore.
Variable cc : result Config.ChainConfig.

Local Arguments indexOf : simpl never.
Local Arguments AllIndexerKeys : simpl never.
Local Arguments String.eqb : simpl never.

Lemma named_by_same (argv argv' : list string) (x : string) :
  (∀ a, a ∈ argv ↔ a ∈ argv') → named_by argv x = named_by argv' x.
Proof.
  intros H. apply eq_true_iff_eq. rewrite !named_by_spec.
  split; intros (arg & Ha & Hx); exists arg; split; try done; by apply H.
Qed.

Lemma includes_same (l l' : list string) (x : string) :
  (∀ a, a ∈ l ↔ a ∈ l') → includes l x = includes l' x.
Proof.
  intros H. apply eq_true_iff_eq. rewrite !includes_spec. apply H.
Qed.

(** X15.  The order of the arguments and their repetition do not matter:
    when the script accepts a list of arguments, it accepts every list
    with the same elements, with the same warnings, the same decision
    about the setup phase and the same indexers in the same order. *)
Theorem selection_ignores_order_and_repetition (ENV : Env)
    (argv argv' warnings : list string) (willSetup : bool)
    (indexers : list string) :
  select ENV argv = Selected warnings willSetup indexers →
  (∀ a, a ∈ argv ↔ a ∈ argv') →
  select ENV argv' = Selected warnings willSetup indexers.
Proof.
  intros Hsel Hsame.
  apply select_Selected_inv in Hsel as (Hne & Hvalid & -> & -> & ->).
  assert (Hne' : argv' ≠ []).
  { destruct argv as [|a argv]; [done|]. intros ->.
    by apply (elem_of_nil a), Hsame; left. }
  assert (Hvalid' : forallb valid_arg argv' = true).
  { rewrite forallb_forall in Hvalid. apply forallb_forall.
    intros a Ha. apply Hvalid. apply list_elem_of_In, Hsame, list_elem_of_In, Ha. }
  rewrite (select_ok ENV argv' Hne' Hvalid').
  unfold warnings_of, selected.
  rewrite <-!(includes_same argv argv') by done.
  f_equal. apply list_filter_iff. intros k. unfold wanted.
  by rewrite (named_by_same argv argv'), (includes_same argv argv').
Qed.

(** X16.  The indexers that the script is to run are registered names,
    each once, in the order of the registry whatever the order of the
    arguments: exactly the registered names that an argument gives or
    that [all] brings; so the chain indexer, when it is among them, runs
    first. *)
Theorem selected_in_registry_order (ENV : Env)
    (argv warnings : list string) (willSetup : bool) (indexers : list string) :
  select ENV argv = Selected warnings willSetup indexers →
  sublist indexers AllIndexerKeys ∧ NoDup indexers ∧
  (∀ k, k ∈ indexers ↔ k ∈ AllIndexerKeys ∧ wanted ENV argv k = true) ∧
  ("chain" ∈ indexers → head indexers = Some "chain").
Proof.
  intros Hsel.
  apply select_Selected_inv in Hsel as (Hne & Hvalid & -> & -> & ->).
  split; [apply sublist_filter|].
  split; [apply selected_sorted|].
  split.
  - intros k. unfold selected. rewrite list_elem_of_filter.
    rewrite Is_true_true. tauto.
  - intros [others ->]%selected_chain_first. done.
Qed.

Lemma run_steps_events (indexers : list string) (e : event) :
  e ∈ script_events cc (indexers ≫= run_steps) →
  is_setup e = false ∧ e ≠ ListenOn "index".
Proof.
  induction indexers as [|x ixs IH]; [by intros ?%elem_of_nil|].
  rewrite bind_cons. unfold run_steps at 1.
  destruct (String.eqb x "chain").
  - cbn [app script_events]. destruct cc.
    + intros Hin. repeat (apply elem_of_cons in Hin as [->|Hin]; [done|]).
      by apply IH.
    + by intros ?%elem_of_nil.
  - cbn [app script_events]. intros [->|Hin]%elem_of_cons; [done|]. by apply IH.
Qed.

Lemma run_events_events (indexers : list string) (e : event) :
  e ∈ run_events cc indexers → is_setup e = false ∧ e ≠ ListenOn "index".
Proof.
  unfold run_events. case_bool_decide.
  - by intros ?%elem_of_nil.
  - apply run_steps_events.
Qed.

(** X17.  The setup phase runs only when it is asked for: when neither
    [all] nor [setup] is an argument, no run of the process, whatever it
    receives, creates a schema, sets up an indexer, or creates the admin
    tables, the migration tables or the views.  (What the process does
    once it shuts down is that of [prexit_fire].) *)
Theorem no_setup_unless_asked (ENV : Env) (argv : list string)
    (sched : list (option input)) (e : event) :
  "all" ∉ argv → "setup" ∉ argv →
  e ∈ trace (run cc ENV argv sched) → is_setup e = false.
Proof.
  intros Hall Hsetup Hin.
  destruct (is_setup e) eqn:He; [|done]. exfalso.
  assert (Hs : is_script_event e = true) by (by destruct e).
  pose proof (run_script_event cc ENV argv sched e Hin Hs) as Ht.
  unfold total_events in Ht.
  destruct (select ENV argv) as [| |w s names] eqn:Hsel;
    try by apply elem_of_nil in Ht.
  pose proof Hsel as Hinv.
  apply select_Selected_inv in Hinv as (_ & _ & _ & -> & _).
  apply includes_false in Hall, Hsetup.
  rewrite Hall, Hsetup in Ht.
  change (script_events cc (main_script (false || false) names))
    with (ListenOn "index" :: run_events cc names) in Ht.
  apply elem_of_cons in Ht as [->|Ht]; [done|].
  apply run_events_events in Ht as [Ht _]. congruence.
Qed.

(** X18.  The process subscribes to the channel [index] before it does
    anything else: in every run, whatever it receives, each step of the
    setup phase and each start of an indexer comes after the call of
    [notifications.listen].  (What the process does once it shuts down
    is that of [prexit_fire].) *)
Theorem listens_before_anything_else (ENV : Env) (argv : list string)
    (sched : list (option input)) (pre post : list event) (e : event) :
  trace (run cc ENV argv sched) = pre ++ e :: post →
  is_script_event e = true → e ≠ ListenOn "index" →
  ListenOn "index" ∈ pre.
Proof.
  intros Htrace Hs Hne.
  assert (Hin : e ∈ trace (run cc ENV argv sched)).
  { rewrite Htrace. apply elem_of_app. right. by left. }
  pose proof (run_script_event cc ENV argv sched e Hin Hs) as Ht.
  destruct (select ENV argv) as [| |w s names] eqn:Hsel;
    try (unfold total_events in Ht; rewrite Hsel in Ht;
         by apply elem_of_nil in Ht).
  pose proof (total_events_selected cc ENV argv w s names Hsel) as Htot.
  destruct (run_prefix cc ENV argv sched pre post [ListenOn "index"] e
              ((if s then setup_events else []) ++ run_events cc names))
    as [more Hmore]; try done.
  { by intros ->%list_elem_of_singleton. }
  assert (H : ListenOn "index" ∈ filter is_script_event pre).
  { rewrite Hmore. by left. }
  by apply list_elem_of_filter in H as [_ H].
Qed.

Lemma chain_start_in_runs (indexers : list string) (b : StartBegin)
    (e : option (Config.End * Config.Delay)) :
  ChainStart b e ∈ script_events cc (indexers ≫= run_steps) →
  "chain" ∈ indexers ∧
  ∃ c, cc = Ok c ∧ b = start_begin (Config.CHAIN_INDEX_BEGIN c) ∧ e = start_end c.
Proof.
  induction indexers as [|x ixs IH]; [by intros ?%elem_of_nil|].
  rewrite bind_cons. unfold run_steps at 1.
  destruct (String.eqb_spec x "chain") as [->|Hx].
  - cbn [app script_events]. destruct cc as [c|msg] eqn:Hcc.
    + intros Hin. split; [by left|].
      apply elem_of_cons in Hin as [?|Hin]; [done|].
      apply elem_of_cons in Hin as [[= -> ->]|Hin]; [by exists c|].
      apply elem_of_cons in Hin as [?|Hin]; [done|].
      by apply IH in Hin as [_ ?].
    + by intros ?%elem_of_nil.
  - cbn [app script_events]. intros [?|Hin]%elem_of_cons; [done|].
    apply IH in Hin as [? ?]. split; [by right | done].
Qed.

(** X19.  [run] of the chain indexer: the chain follow is started only
    after the staking indexer, only when [config.chain()] returned, with
    the begin position and the end of that configuration; and a begin
    position that is a point is handed over as a list of that one
    point.  (What the process does once it shuts down is that of
    [prexit_fire].) *)
Theorem chain_follow_starts_after_staking (ENV : Env) (argv : list string)
    (sched : list (option input)) (pre post : list event) (b : StartBegin)
    (e : option (Config.End * Config.Delay)) :
  trace (run cc ENV argv sched) = pre ++ ChainStart b e :: post →
  StakingStart ∈ pre ∧
  (∃ c, cc = Ok c ∧ b = start_begin (Config.CHAIN_INDEX_BEGIN c) ∧
        e = start_end c) ∧
  (∀ points, b = FromPoints points → length points = 1%nat).
Proof.
  intros Htrace.
  assert (Hin : ChainStart b e ∈ trace (run cc ENV argv sched)).
  { rewrite Htrace. apply elem_of_app. right. by left. }
  pose proof (run_script_event cc ENV argv sched _ Hin eq_refl) as Ht.
  destruct (select ENV argv) as [| |w s names] eqn:Hsel;
    try (unfold total_events in Ht; rewrite Hsel in Ht;
         by apply elem_of_nil in Ht).
  pose proof (total_events_selected cc ENV argv w s names Hsel) as Htot.
  assert (Hpre : ChainStart b e ∉ ListenOn "index" :: (if s then setup_events else [])).
  { intros Hp. assert (Hf : Forall (λ e, is_start e = false)
                              (ListenOn "index" :: (if s then setup_events else []))).
    { destruct s; [apply setup_events_no_start|by repeat constructor]. }
    rewrite Forall_forall in Hf. by apply Hf in Hp. }
  rewrite Htot in Ht. apply elem_of_app in Ht as [?|Ht]; [done|].
  unfold run_events in Ht, Htot. case_bool_decide as Hnil;
    [by apply elem_of_nil in Ht|].
  apply chain_start_in_runs in Ht as [Hchain (c & Hcc & -> & ->)].
  split; [|split; [by exists c|]].
  - apply select_Selected_inv in Hsel as (_ & _ & _ & _ & ->).
    apply selected_chain_first in Hchain as [others Hothers].
    rewrite Hothers in Htot. rewrite bind_cons in Htot.
    change (run_steps "chain")
      with [SChainConfig; SChainStaking; SChainStart; SChainStarted] in Htot.
    cbn [app script_events] in Htot.
    destruct (run_prefix cc ENV argv sched pre post
                ((ListenOn "index" :: (if s then setup_events else [])) ++ [StakingStart])
                (ChainStart (start_begin (Config.CHAIN_INDEX_BEGIN c)) (start_end c))
                (ChainStart (start_begin (Config.CHAIN_INDEX_BEGIN c)) (start_end c)
                 :: ChainIntersectionFound
                 :: script_events cc (others ≫= run_steps)))
      as [more Hmore]; try done.
    + rewrite Htot, Hcc. by rewrite <-app_assoc.
    + intros [?|?%list_elem_of_singleton]%elem_of_app; [by apply Hpre | done].
    + assert (H : StakingStart ∈ filter is_script_event pre).
      { rewrite Hmore. apply elem_of_app. left. apply elem_of_app. right. by left. }
      by apply list_elem_of_filter in H as [_ H].
  - intros points. destruct (Config.CHAIN_INDEX_BEGIN c); simpl; try done.
    by intros [= <-].
Qed.
End index_more.

(** ** More of [src/config.ts] *)

Section config_rest.
Import Js Config ConfigRest.



Lemma pick_snoc {V : Type} (base : gmap string V) (keys : list string) (k : string) :
  pick base (keys ++ [k]) = <[k := base !! k]> (pick base keys).
Proof. unfold pick. by rewrite foldl_app. Qed.

Lemma pick_lookup {V : Type} (base : gmap string V) (keys : list string) (k : string) :
  pick base keys !! k = if bool_decide (k ∈ keys) then Some (base !! k) else None.
Proof.
  induction keys as [|x keys IH] using rev_ind.
  - by rewrite bool_decide_eq_false_2 by apply not_elem_of_nil.
  - rewrite pick_snoc. destruct (decide (k = x)) as [->|Hne].
    + rewrite lookup_insert_eq. rewrite bool_decide_eq_true_2; [done|].
      apply elem_of_app. right. by left.
    + rewrite lookup_insert_ne by done. rewrite IH.
      apply (f_equal (λ b : bool, if b then Some (base !! k) else None)).
      apply bool_decide_ext. rewrite elem_of_app, list_elem_of_singleton. tauto.
Qed.

(** X21.  [pick] restricts an object to the given keys: each given key
    holds the value that [base] has for it, no other key is there, and
    the order of the keys and their repetition do not matter. *)
Theorem pick_restricts (V : Type) (base : gmap string V) (keys : list string) :
  (∀ k, k ∈ keys → is_Some (base !! k)) →
  (∀ k, k ∈ keys → ∃ v, base !! k = Some v ∧ pick base keys !! k = Some (Some v)) ∧
  (∀ k, k ∉ keys → pick base keys !! k = None) ∧
  (∀ keys', (∀ k, k ∈ keys ↔ k ∈ keys') → pick base keys' = pick base keys).
Proof.
  intros Hown. split; [|split].
  - intros k Hk. destruct (Hown k Hk) as [v Hv]. exists v. split; [done|].
    by rewrite pick_lookup, bool_decide_eq_true_2, Hv.
  - intros k Hk. by rewrite pick_lookup, bool_decide_eq_false_2.
  - intros keys' Hsame. apply map_eq. intros k. rewrite !pick_lookup.
    apply (f_equal (λ b : bool, if b then Some (base !! k) else None)).
    apply bool_decide_ext. symmetry. apply Hsame.
Qed.
End config_rest.

(** ** More sample evaluations *)

Section more_samples.
Import Js JsMore Config ConfigSpec ConfigMore ConfigMoreSpec.
Import Logo LogoSpec LogoMore Index IndexSpec IndexMore ConfigRest.

Lemma handle_key_pattern_witness :
  ∃ w l rest,
    key sample_task = "logos/" +:+ w +:+ "/" +:+ String l ("/" +:+ rest) ∧
    w ≠ EmptyString ∧ all_word w = true ∧ is_letter l = true.
Proof.
  refine (proj1 (handle_key_pattern sample_getObject sample_ipfs_add None
                   ∅ ∅ sample_task) _ _).
  reflexivity.
Defined.

Lemma handle_then_fetch_skips_witness :
  handle sample_getObject sample_ipfs_add None ∅ ∅ sample_task =
    (({["e9"]} ∪ ∅, upsert "Qmpng" "A" (Some "e9") ∅), Ok tt) ∧
  (∅ : gset string) ⊆ {["e9"]} ∪ ∅.
Proof.
  split; [reflexivity|].
  refine (proj1 (handle_then_fetch_skips sample_getObject sample_ipfs_add None
                   ∅ _ ∅ _ sample_task _ _)).
  reflexivity.
Defined.

Lemma handle_failed_insert_remembers_etag_witness :
  (key_letter (key sample_task) = Some "a"%char ∧
   sample_getObject (key sample_task) (etag sample_task) =
     Ok {| res_ETag := Some "e9"; Body := Some "png" |} ∧
   sample_ipfs_add "png" = Ok "Qmpng") ∧
  handle sample_getObject sample_ipfs_add (Some "duplicate key") ∅ ∅ sample_task =
    (({["e9"]} ∪ ∅, ∅), Throw "duplicate key").
Proof.
  split; [repeat split; reflexivity|].
  refine (proj1 (handle_failed_insert_remembers_etag sample_getObject
                   sample_ipfs_add (Some "duplicate key") ∅ ∅ sample_task
                   "a"%char {| res_ETag := Some "e9"; Body := Some "png" |}
                   "png" "Qmpng" "e9" "duplicate key" _ _ _ _ _ _));
    reflexivity.
Defined.

Lemma handle_persists_for_initialize_witness :
  handle sample_getObject sample_ipfs_add None ∅ ∅ sample_task =
    (({["e9"]} ∪ ∅, upsert "Qmpng" "A" (Some "e9") ∅), Ok tt) ∧
  "e9" ∈ initialize (rows_of (upsert "Qmpng" "A" (Some "e9") ∅)) ∅.
Proof.
  split; [reflexivity|].
  refine (proj2 (handle_persists_for_initialize sample_getObject sample_ipfs_add
                   None ∅ _ ∅ _ sample_task
                   {| res_ETag := Some "e9"; Body := Some "png" |}
                   "png" "Qmpng" "e9" _ _ _ _ _));
    reflexivity.
Defined.

Lemma handle_idempotent_witness :
  handle sample_getObject sample_ipfs_add None ∅ ∅ sample_task =
    (({["e9"]} ∪ ∅, upsert "Qmpng" "A" (Some "e9") ∅), Ok tt) ∧
  handle sample_getObject sample_ipfs_add None ({["e9"]} ∪ ∅)
    (upsert "Qmpng" "A" (Some "e9") ∅) sample_task =
    (({["e9"]} ∪ ∅, upsert "Qmpng" "A" (Some "e9") ∅), Ok tt).
Proof.
  split; [reflexivity|].
  refine (handle_idempotent sample_getObject sample_ipfs_add None
            ∅ _ ∅ _ sample_task _).
  reflexivity.
Defined.

Lemma handle_keeps_letters_capital_witness :
  letters_capital {["Qmjpg" := ("B", None)]} ∧
  letters_capital (upsert "Qmpng" "A" (Some "e9") {["Qmjpg" := ("B", None)]}).
Proof.
  assert (H : letters_capital {["Qmjpg" := ("B", None)]}).
  { intros cid l e [_ [= <- _]]%lookup_singleton_Some.
    exists "B"%char. split; [reflexivity|]. vm_compute. split; discriminate. }
  split; [exact H|].
  refine (handle_keeps_letters_capital sample_getObject sample_ipfs_add None
            ∅ _ _ _ sample_task _ H _).
  reflexivity.
Defined.

Lemma fetch_accounts_for_every_object_witness :
  fetchTasksFromS3 sample_listing (initialize sample_rows ∅) = Ok sample_fetch ∧
  (length (tasks sample_fetch) + skipped sample_fetch)%nat =
    length (listed sample_listing).
Proof.
  split; [vm_compute; reflexivity|].
  refine (proj1 (fetch_accounts_for_every_object sample_listing
                   (initialize sample_rows ∅) sample_fetch _)).
  vm_compute; reflexivity.
Defined.

Lemma fetch_all_or_nothing_witness :
  ∃ r, fetchTasksFromS3 sample_listing ∅ = Ok r.
Proof.
  refine (proj2 (proj1 (fetch_all_or_nothing sample_listing ∅)) _).
  split; repeat constructor; by eexists.
Defined.

Lemma cardano_result_well_formed_witness :
  cardano sample_cardano_env =
    Ok {| NETWORK := "preprod"; CEXPLORER_URL := "https://cexplorer.io" |} ∧
  Js.endsWith "https://cexplorer.io" "/" = false.
Proof.
  split; [vm_compute; reflexivity|].
  refine (proj1 (proj2 (proj2 (proj2 (proj2
            (cardano_result_well_formed sample_cardano_env
               {| NETWORK := "preprod"; CEXPLORER_URL := "https://cexplorer.io" |}
               _)))))).
  vm_compute; reflexivity.
Defined.

Lemma chain_error_precedence_witness :
  (requiredEnv (<["CHAIN_INDEX_END" := "soon"]> (env_with_begin "origin"))
     "CHAIN_INDEX_CONFIG" = Ok "chain.yaml" ∧
   parseChainIndexEnd
     (<["CHAIN_INDEX_END" := "soon"]> (env_with_begin "origin") !! "CHAIN_INDEX_END") =
     Throw "Must be <slot>") ∧
  chain sample_readConfig (<["CHAIN_INDEX_END" := "soon"]> (env_with_begin "origin")) =
    Throw "Must be <slot>".
Proof.
  split; [split; vm_compute; reflexivity|].
  refine (proj2 (proj2 (proj2 (proj2
            (chain_error_precedence sample_readConfig
               (<["CHAIN_INDEX_END" := "soon"]> (env_with_begin "origin"))))))
            "chain.yaml" sample_file (Some Origin) "Must be <slot>" _ _ _ _ _).
  - vm_compute; reflexivity.
  - vm_compute; reflexivity.
  - vm_compute; reflexivity.
  - left. by eexists.
  - vm_compute; reflexivity.
Defined.

Lemma begin_ignores_after_second_colon_witness :
  (has_char ":" "12" = false ∧ has_char ":" "ab" = false) ∧
  parseChainIndexBegin (Some "12:ab:cd") = parseChainIndexBegin (Some "12:ab").
Proof.
  split; [split; reflexivity|].
  exact (begin_ignores_after_second_colon "12" "ab" "cd" eq_refl eq_refl).
Defined.

Lemma begin_point_has_hash_witness :
  parseChainIndexBegin (Some "12:ab:cd") =
    Ok (Some (At {| slot := 12; hash := "ab" |})) ∧
  hash {| slot := 12; hash := "ab" |} ≠ EmptyString.
Proof.
  split; [vm_compute; reflexivity|].
  refine (proj1 (begin_point_has_hash (Some "12:ab:cd")
                   {| slot := 12; hash := "ab" |} _)).
  vm_compute; reflexivity.
Defined.

Lemma begin_round_trip_witness :
  (- 2 ^ 53 <= 12 <= 2 ^ 53 ∧ "ab" ≠ EmptyString ∧ has_char ":" "ab" = false) ∧
  parseChainIndexBegin (Some (pretty 12 +:+ String ":" "ab")) =
    Ok (Some (At {| slot := 12; hash := "ab" |})).
Proof.
  split; [split; [lia | split; [discriminate | reflexivity]]|].
  refine (begin_round_trip 12 "ab" _ _ _); [lia | discriminate | reflexivity].
Defined.

Lemma end_reads_leading_number_witness :
  (- 2 ^ 53 <= 100 <= 2 ^ 53 ∧ stops "abc") ∧
  parseChainIndexEnd (Some (pretty 100 +:+ "abc")) = Ok (Some (EndSlot 100)).
Proof.
  assert (H : stops "abc") by (split; [reflexivity | split; discriminate]).
  split; [split; [lia | exact H]|].
  refine (end_reads_leading_number 100 "abc" _ H). lia.
Defined.

Lemma selection_ignores_order_and_repetition_witness :
  (select development ["ai."; "chain"] =
     Selected [] false
       ["chain"; "ai.logo"; "ai.podcast"; "ai.ocr"; "ai.project_moderation"] ∧
   ∀ a, a ∈ ["ai."; "chain"] ↔ a ∈ ["chain"; "ai."; "chain"]) ∧
  select development ["chain"; "ai."; "chain"] =
    Selected [] false
      ["chain"; "ai.logo"; "ai.podcast"; "ai.ocr"; "ai.project_moderation"].
Proof.
  assert (H : ∀ a, a ∈ ["ai."; "chain"] ↔ a ∈ ["chain"; "ai."; "chain"])
    by (intros a; rewrite !elem_of_cons; tauto).
  split; [split; [vm_compute; reflexivity | exact H]|].
  refine (selection_ignores_order_and_repetition development
            ["ai."; "chain"] ["chain"; "ai."; "chain"] _ _ _ _ H).
  vm_compute; reflexivity.
Defined.

Lemma selected_in_registry_order_witness :
  select development ["ai."; "chain"] =
    Selected [] false
      ["chain"; "ai.logo"; "ai.podcast"; "ai.ocr"; "ai.project_moderation"] ∧
  sublist ["chain"; "ai.logo"; "ai.podcast"; "ai.ocr"; "ai.project_moderation"]
          AllIndexerKeys.
Proof.
  split; [vm_compute; reflexivity|].
  refine (proj1 (selected_in_registry_order development ["ai."; "chain"]
                   [] false _ _)).
  vm_compute; reflexivity.
Defined.

Lemma no_setup_unless_asked_witness :
  (("all" ∉ ["chain"]) ∧ ("setup" ∉ ["chain"]) ∧
   ListenOn "index" ∈ trace (run sample_cc mainnet ["chain"] sample_schedule)) ∧
  is_setup (ListenOn "index") = false.
Proof.
  assert (H1 : "all" ∉ ["chain"])
    by (apply (bool_decide_unpack _); vm_compute; exact I).
  assert (H2 : "setup" ∉ ["chain"])
    by (apply (bool_decide_unpack _); vm_compute; exact I).
  assert (H3 : ListenOn "index" ∈
               trace (run sample_cc mainnet ["chain"] sample_schedule))
    by (vm_compute; right; left).
  split; [done|].
  exact (no_setup_unless_asked sample_cc mainnet ["chain"] sample_schedule
           (ListenOn "index") H1 H2 H3).
Defined.

Lemma listens_before_anything_else_witness :
  trace sample_machine =
    take 3 (trace sample_machine) ++ StakingStart :: drop 4 (trace sample_machine) ∧
  ListenOn "index" ∈ take 3 (trace sample_machine).
Proof.
  split; [vm_compute; reflexivity|].
  refine (listens_before_anything_else sample_cc mainnet ["chain"] sample_schedule
            (take 3 (trace sample_machine)) (drop 4 (trace sample_machine))
            StakingStart _ _ _).
  - vm_compute; reflexivity.
  - reflexivity.
  - discriminate.
Defined.

Lemma chain_follow_starts_after_staking_witness :
  trace sample_machine =
    take 4 (trace sample_machine) ++
    ChainStart FromOrigin None :: drop 5 (trace sample_machine) ∧
  StakingStart ∈ take 4 (trace sample_machine).
Proof.
  split; [vm_compute; reflexivity|].
  refine (proj1 (chain_follow_starts_after_staking sample_cc mainnet ["chain"]
                   sample_schedule (take 4 (trace sample_machine))
                   (drop 5 (trace sample_machine)) FromOrigin None _)).
  vm_compute; reflexivity.
Defined.


Lemma pick_restricts_witness :
  (∀ k, k ∈ ["a"] → is_Some (sample_base !! k)) ∧
  pick sample_base ["a"] !! "b" = None.
Proof.
  assert (H : ∀ k, k ∈ ["a"] → is_Some (sample_base !! k)).
  { intros k ->%list_elem_of_singleton. exists 1. vm_compute; reflexivity. }
  split; [exact H|].
  refine (proj1 (proj2 (pick_restricts Z sample_base ["a"] H)) "b" _).
  apply (bool_decide_unpack _). vm_compute; exact I.
Defined.
End more_samples.
